(** * GP-Spectra: the PCA pipeline of [code/gpspec.py]

    A shallow embedding of the classes [pcaUtils] and [pcaSED] and the
    properties their specification states about them.

    Conventions of the embedding.
    - Numbers.  A numpy [float64] is modelled by an exact rational [Qc]
      (canonical rationals, Leibniz equality).  Rounding, [inf] and [nan]
      are outside the model; where the source tests for [nan] the reader
      reports it (see [read_outcome]).  Division by zero, which numpy
      answers with [inf]/[nan] and a warning, is never relied upon: every
      statement about a quotient carries the hypothesis that the divisor
      is not zero.  Two places leave the rationals.  [scaleSpectrum_f64]
      repeats [scaleSpectrum] on binary64 floats, to show what rounding
      does to an equation between two of its results.  The module
      [OverR] repeats the PCA step of [specPCA] and [reconstruct_spectra]
      over the real numbers, where the unit axes of a PCA live.
    - Exceptions.  A Python computation that may raise is a value of
      [result A]; one that also touches the file system is an [io A], a
      state-and-error monad in which the state reached at the moment of
      the exception is kept.
    - Arrays.  A one-dimensional array is a [list Qc]; a two-dimensional
      array is an [ndarray2], which stores its number of columns so that
      the shape [(0, n)] is not confused with [(0, 0)].
    - Collaborators.  [Sed.resampleSED], [BandpassDict.magListForSed] and
      scikit-learn's [PCA] are not part of the repository; they are
      parameters of the embedding. *)

From Stdlib Require Import QArith Qcanon Field Ascii PrimFloat Rbase R_sqrt Lra.
From stdpp Require Import base numbers list sorting strings gmap pretty.

Local Open Scope Qc_scope.

(** ** Python: exceptions, indexing, slicing *)

Inductive exn := IndexError | ValueError | OSError | IOError.

Inductive result (A : Type) :=
  | Ok (a : A)
  | Raise (e : exn).
Arguments Ok {A} a.
Arguments Raise {A} e.

#[global] Instance exn_eq_dec : EqDecision exn.
Proof. solve_decision. Defined.
#[global] Instance result_eq_dec `{EqDecision A} : EqDecision (result A).
Proof. solve_decision. Defined.

#[global] Instance result_ret : MRet result := @Ok.
#[global] Instance result_bind : MBind result := λ A B f m,
  match m with
  | Ok a => f a
  | Raise e => Raise e
  end.
#[global] Instance result_fmap : FMap result := λ A B f m,
  match m with
  | Ok a => Ok (f a)
  | Raise e => Raise e
  end.

Definition raises {A} (m : result A) : Prop := ∃ e, m = Raise e.

(** [l[i]]: a negative index counts from the end; out of range raises
    [IndexError]. *)
Definition py_index {A} (l : list A) (i : Z) : result A :=
  let j := if bool_decide (i < 0)%Z then (i + Z.of_nat (length l))%Z else i in
  if bool_decide (j < 0)%Z then Raise IndexError
  else match l !! Z.to_nat j with
       | Some x => Ok x
       | None => Raise IndexError
       end.

(** A slice bound is first made relative to the start (negative bounds
    count from the end) and then clamped to [0 .. len]. *)
Definition py_bound (len : nat) (i : Z) : nat :=
  let j := if bool_decide (i < 0)%Z then (i + Z.of_nat len)%Z else i in
  Z.to_nat (Z.min (Z.max j 0) (Z.of_nat len)).

(** [l[:stop]] *)
Definition py_slice_to {A} (l : list A) (stop : Z) : list A :=
  take (py_bound (length l) stop) l.

(** [l[start:stop]] *)
Definition py_slice {A} (l : list A) (start stop : Z) : list A :=
  let a := py_bound (length l) start in
  let b := py_bound (length l) stop in
  take (b - a) (drop a l).

(** [range(n)] and [range(a, b)] *)
Definition py_range2 (a b : Z) : list Z :=
  (λ k : nat, (a + Z.of_nat k)%Z) <$> seq 0 (Z.to_nat (b - a)).
Definition py_range (n : Z) : list Z := py_range2 0 n.

(** ** numpy *)

Abbreviation vec := (list Qc).

(** The number [a] *)
Definition z (a : Z) : Qc := Q2Qc (inject_Z a).

Record ndarray2 := Array2 { ncols : nat; rows : list vec }.

#[global] Instance ndarray2_eq_dec : EqDecision ndarray2.
Proof. solve_decision. Defined.

Definition nrows (a : ndarray2) : nat := length (rows a).

(** Every row has the declared number of columns. *)
Definition array_wf (a : ndarray2) : Prop :=
  Forall (λ r, length r = ncols a) (rows a).

(** [np.sum] of a one-dimensional array *)
Definition np_sum (v : vec) : Qc := foldr Qcplus 0 v.
Arguments np_sum : simpl never.

(** Elementwise [u + v], [u - v] and [c * v] on arrays of one shape *)
Definition vadd (u v : vec) : vec := zip_with Qcplus u v.
Definition vsub (u v : vec) : vec := zip_with Qcminus u v.
Definition vscale (c : Qc) (v : vec) : vec := Qcmult c <$> v.

(** Inner product of two one-dimensional arrays *)
Definition vdot (u v : vec) : Qc := np_sum (zip_with Qcmult u v).

(** [np.where(cond)[0]]: the indices at which the condition holds, in
    increasing order *)
Fixpoint np_where_from {A} (i : Z) (p : A → bool) (l : list A) : list Z :=
  match l with
  | [] => []
  | x :: l =>
    if p x then i :: np_where_from (i + 1) p l else np_where_from (i + 1) p l
  end.
Definition np_where {A} (p : A → bool) (l : list A) : list Z :=
  np_where_from 0 p l.

(** Row vector times matrix: [Σ_k a[k] * b[k, :]] *)
Definition vecmat (n : nat) (a : vec) (b : list vec) : vec :=
  foldr (λ '(ak, bk) acc, vadd (vscale ak bk) acc) (replicate n 0) (zip a b).

(** [np.dot(a, b)] on two-dimensional arrays: the inner dimensions must
    agree, otherwise numpy raises [ValueError] (shapes not aligned). *)
Definition np_dot (a b : ndarray2) : result ndarray2 :=
  if bool_decide (ncols a = nrows b)
  then Ok (Array2 (ncols b) ((λ r, vecmat (ncols b) r (rows b)) <$> rows a))
  else Raise ValueError.

(** [v + a] for a one-dimensional [v] and a two-dimensional [a], with
    numpy's broadcasting: the trailing dimensions must be equal or one of
    them must be 1. *)
Definition np_add_broadcast (v : vec) (a : ndarray2) : result ndarray2 :=
  if bool_decide (length v = ncols a)
  then Ok (Array2 (ncols a) (vadd v <$> rows a))
  else match v with
       | [c] => Ok (Array2 (ncols a) ((λ r : vec, Qcplus c <$> r) <$> rows a))
       | _ =>
         if bool_decide (ncols a = 1%nat)
         then Ok (Array2 (length v)
                    ((λ r : vec, (λ x, x + default 0 (head r)) <$> v) <$> rows a))
         else Raise ValueError
       end.

(** [np.transpose] of a two-dimensional array *)
Definition np_transpose (a : ndarray2) : ndarray2 :=
  Array2 (nrows a)
         ((λ j, (λ r : vec, default 0 (r !! j)) <$> rows a) <$> seq 0 (ncols a)).

(** [a[:, :stop]] *)
Definition np_cols_to (a : ndarray2) (stop : Z) : ndarray2 :=
  Array2 (py_bound (ncols a) stop) ((λ r : vec, py_slice_to r stop) <$> rows a).

(** ** class pcaUtils *)

(** The part of [lsst_utils.Sed] the pipeline uses. [scale_flux] is the
    attribute [specPCA] attaches; [None] while it is not set. *)
Record Sed := mkSed {
  name : string;
  wavelen : vec;
  flambda : vec;
  scale_flux : option vec
}.

#[global] Instance Sed_eq_dec : EqDecision Sed.
Proof. solve_decision. Defined.

(** What [Sed.readSED_flambda] does for one file: it raises, or it reads
    a table whose first flux value is [nan], or it reads a table of
    numbers. *)
Inductive read_outcome :=
  | ReadRaises
  | ReadLeadingNan (w : vec)
  | ReadTable (w f : vec).

(** [os.walk(directory)]: one [(root, dirs, files)] triple per directory
    visited. *)
Abbreviation walk := (list (string * list string * list string)).

Section loadSpectra.
Variable readSED_flambda : string → read_outcome.

(** The body of the inner loop: [try: ... except: continue]. The
    progress message is not modelled. *)
Definition load_one (root fname : string) : list Sed :=
  match readSED_flambda (root +:+ "/" +:+ fname) with
  | ReadTable w (f0 :: f) => [mkSed fname w (f0 :: f) None]
  | ReadTable w [] => []          (* flambda[0] raises, caught *)
  | ReadLeadingNan _ => []        (* isnan(flambda[0]) *)
  | ReadRaises => []              (* caught *)
  end.

Definition loadSpectra (tree : walk) : list Sed :=
  '(root, _, files) ← tree; fname ← files; load_one root fname.
End loadSpectra.

(** [scaleSpectrum]: divide the flux by its sum. *)
Definition scaleSpectrum (sedFlux : vec) : vec :=
  let norm := np_sum sedFlux in
  (λ x, x / norm) <$> sedFlux.

(** [scaleSpectrum] on float64 numbers. A numpy [float64] is an IEEE 754
    binary64 number, as Rocq's primitive floats are, with the same
    rounding to nearest of every sum, product and quotient. [np.sum]
    starts from zero and, for an array of fewer than eight elements,
    adds the elements one after the other. (Of longer arrays it adds
    blocks in pairs; this model is used for short arrays only.) *)
Definition np_sum_f64 (v : list float) : float :=
  foldl PrimFloat.add 0%float v.

Definition scaleSpectrum_f64 (sedFlux : list float) : list float :=
  let norm := np_sum_f64 sedFlux in
  (λ x, PrimFloat.div x norm) <$> sedFlux.

(** ** scikit-learn's PCA, as far as the pipeline reads it *)

Record PCA := mkPCA {
  mean_ : vec;
  components_ : ndarray2;
  explained_variance_ratio_ : vec
}.

(** [PCA.transform(X)]: the rows of [X] are centred on [mean_] and
    projected on the components, [np.dot(X - mean_, components_.T)]. *)
Definition pca_transform (p : PCA) (X : list vec) : ndarray2 :=
  Array2 (nrows (components_ p))
         ((λ x : vec, vdot (vsub x (mean_ p)) <$> rows (components_ p)) <$> X).

(** [np.array(l)] for a list of one-dimensional arrays of one length. The
    empty list gives numpy's empty array, here the array without rows. *)
Definition np_array2 (l : list vec) : ndarray2 :=
  Array2 (length (default [] (head l))) l.

(** ** class pcaSED *)

(** The attributes [specPCA] sets on the instance. *)
Record pcaSED := mkPcaSED {
  spec_list : list Sed;
  mean_spec : vec;
  eigenspectra : ndarray2;
  projected : ndarray2;
  explained_var : vec;
  mags : ndarray2;
  colors : ndarray2
}.

#[global] Instance pcaSED_eq_dec : EqDecision pcaSED.
Proof. solve_decision. Defined.

(** The shapes documented for the attributes: [eigenspectra] is
    [(n_components, n_wavelengths)], [projected] is
    [(n_spectra, n_components)], [mean_spec] is [(n_wavelengths,)]. *)
Record fitted_wf (self : pcaSED) : Prop := {
  wf_eigenspectra : array_wf (eigenspectra self);
  wf_projected : array_wf (projected self);
  wf_components : ncols (projected self) = nrows (eigenspectra self);
  wf_mean : length (mean_spec self) = ncols (eigenspectra self);
  wf_spectra : length (spec_list self) = nrows (projected self)
}.

(** Lines 157-161: the part of the first spectrum's grid kept for the
    PCA. *)
Definition wavelen_window (wl : vec) (minWavelen maxWavelen : Qc)
    : result vec :=
  min_wave_x ← py_index (np_where (λ w, bool_decide (minWavelen ≤ w)) wl) 0;
  max_wave_x ← py_index (np_where (λ w, bool_decide (w ≤ maxWavelen)) wl) (-1);
  Ok (py_slice wl min_wave_x (max_wave_x + 1)).

(** [reconstruct_spectra]: only the coefficients are cut to [num_comps]
    columns; [self.eigenspectra] enters the product whole. *)
Definition reconstruct_spectra (self : pcaSED) (num_comps : Z)
    : result ndarray2 :=
  prod ← np_dot (np_cols_to (projected self) num_comps) (eigenspectra self);
  np_add_broadcast (mean_spec self) prod.

Section pcaSED.
(** [bandpass_dict.magListForSed] of a [Sed] with the given [wavelen]
    and [flambda]: one magnitude per filter. *)
Variable magListForSed : vec → vec → vec.
(** The flux of a [Sed] with the given [wavelen] and [flambda] after
    [resampleSED(wavelen_match=...)]; its grid is then [wavelen_match]. *)
Variable resampleSED : vec → vec → vec → vec.
(** [sklPCA(n_components=comps).fit(X)] *)
Variable sklPCA_fit : Z → list vec → result PCA.

(** The body of the loop of lines 166-177 for one spectrum: the
    resampled, normalised copy appended to [self.spec_list]. *)
Definition resampled_copy (wavelen_set : vec) (spec : Sed) : Sed :=
  let fl := resampleSED (wavelen spec) (flambda spec) wavelen_set in
  mkSed (name spec) wavelen_set fl (Some (scaleSpectrum fl)).

Definition specPCA (spec_list_orig : list Sed) (comps : Z)
    (minWavelen maxWavelen : Qc) : result pcaSED :=
  first ← py_index spec_list_orig 0;
  wavelen_set ← wavelen_window (wavelen first) minWavelen maxWavelen;
  let full_mags :=
    (λ spec, magListForSed (wavelen spec) (flambda spec)) <$> spec_list_orig in
  let spec_list := resampled_copy wavelen_set <$> spec_list_orig in
  let scaled_fluxes := (λ s, scaleSpectrum (flambda s)) <$> spec_list in
  let full_mags_T := np_transpose (np_array2 full_mags) in
  color_vals ← mapM (λ color_num,
      a ← py_index (rows full_mags_T) color_num;
      b ← py_index (rows full_mags_T) (color_num + 1);
      Ok (vsub a b))
    (py_range2 0 (Z.of_nat (nrows full_mags_T) - 1));
  spectra_pca ← sklPCA_fit comps scaled_fluxes;
  Ok {| spec_list := spec_list;
        mean_spec := mean_ spectra_pca;
        eigenspectra := components_ spectra_pca;
        projected := pca_transform spectra_pca scaled_fluxes;
        explained_var := explained_variance_ratio_ spectra_pca;
        mags := np_array2 full_mags;
        colors := np_transpose (np_array2 color_vals) |}.

(** The list comprehension of line 246 for one magnitude list. *)
Definition colors_of_mags (filters : list string) (mags : vec)
    : result vec :=
  mapM (λ x, a ← py_index mags x; b ← py_index mags (x - 1); Ok (a - b))
       (py_range (Z.of_nat (length filters) - 1)).

Definition calc_new_colors (filters : list string) (self : pcaSED)
    (num_comps : Z) : result (list vec) :=
  reconstructed_specs ← reconstruct_spectra self num_comps;
  mapM (λ spec,
      s0 ← py_index (spec_list self) 0;
      colors_of_mags filters (magListForSed (wavelen s0) spec))
    (rows reconstructed_specs).
End pcaSED.

(** The colours the specification describes: magnitude [i] minus
    magnitude [i+1], for every adjacent pair of filters. *)
Definition adjacent_colors (mags : vec) : vec :=
  zip_with Qcminus mags (drop 1 mags).

(** The reconstruction the specification describes: the mean spectrum
    plus the first [k] coefficients times the first [k] eigenspectra. *)
Definition truncated_reconstruction (self : pcaSED) (k : nat) : list vec :=
  (λ coeff : vec,
     vadd (mean_spec self)
          (vecmat (ncols (eigenspectra self)) (take k coeff)
                  (take k (rows (eigenspectra self)))))
  <$> rows (projected self).

(** ** What scikit-learn promises of a fitted PCA

    scikit-learn is not part of the repository. Its documentation gives
    the attributes of a fitted [PCA]: [mean_] is the per-feature mean of
    the training rows, [components_] holds [n_components] principal axes
    in feature space, of unit length, orthogonal to each other, each a
    direction of maximal variance among those orthogonal to the ones
    before it. *)

(** [np.mean(X, axis=0)] for rows of length [n] *)
Definition np_mean_rows (n : nat) (X : list vec) : vec :=
  vscale (1 / z (Z.of_nat (length X))) (foldr vadd (replicate n 0) X).

(** The sum of the squared projections of the centred rows on [w]: the
    variance of the data along [w], up to the factor [1/(m-1)]. *)
Definition variance_along (X : list vec) (m w : vec) : Qc :=
  np_sum ((λ x, vdot (vsub x m) w * vdot (vsub x m) w) <$> X).

Fixpoint orthonormal (V : list vec) : Prop :=
  match V with
  | [] => True
  | v :: V' =>
    vdot v v = 1 ∧ Forall (λ w, vdot v w = 0) V' ∧ orthonormal V'
  end.

Fixpoint principal_axes (X : list vec) (m : vec) (n : nat)
    (before axes : list vec) : Prop :=
  match axes with
  | [] => True
  | c :: axes' =>
    (∀ w, length w = n → vdot w w = 1 → Forall (λ b, vdot b w = 0) before →
          variance_along X m w ≤ variance_along X m c) ∧
    principal_axes X m n (before ++ [c]) axes'
  end.

Record pca_fit_ok (comps : Z) (X : list vec) (p : PCA) : Prop := {
  fit_features : Forall (λ x, length x = ncols (components_ p)) X;
  fit_mean : mean_ p = np_mean_rows (ncols (components_ p)) X;
  fit_count : Z.of_nat (nrows (components_ p)) = comps;
  fit_shape : array_wf (components_ p);
  fit_orthonormal : orthonormal (rows (components_ p));
  fit_principal :
    principal_axes X (mean_ p) (ncols (components_ p)) [] (rows (components_ p))
}.

(** The normalised fluxes [specPCA] fitted, as kept on the spectra. *)
Definition scaled_fluxes (self : pcaSED) : list vec :=
  (λ spec, default [] (scale_flux spec)) <$> spec_list self.

(** ** The file system *)

(** Directories and the files holding tables of numbers, by path. A path
    is the string the program builds; [parents] gives the directories it
    passes through, one for each ["/"] (the empty string stands for the
    root). [np.savetxt] with its default format and [np.loadtxt] are
    taken to write and read the numbers as they are. *)
Record fs := mkFs { dirs : gset string; files : gmap string vec }.

Fixpoint parents (path : string) : list string :=
  match path with
  | EmptyString => []
  | String c rest =>
    (if bool_decide (c = "/"%char) then [""] else [])
    ++ (String c <$> parents rest)
  end.

Fixpoint no_slash (s : string) : bool :=
  match s with
  | EmptyString => true
  | String c rest => bool_decide (c ≠ "/"%char) && no_slash rest
  end.

(** Every directory on the way to a directory, or to a file, exists. *)
Definition dirs_closed (ds : gset string) : Prop :=
  ∀ p d, p ∈ ds → d ∈ parents p → d ∈ ds.

Definition fs_wf (s : fs) : Prop :=
  (∀ p d, is_Some (files s !! p) → d ∈ parents p → d ∈ dirs s) ∧
  dirs_closed (dirs s).

(** Computations that may raise and that change the file system; the
    changes made before an exception stay. *)
Definition io (A : Type) : Type := fs → result A * fs.

#[global] Instance io_ret : MRet io := λ A a s, (Ok a, s).
#[global] Instance io_bind : MBind io := λ A B f m s,
  match m s with
  | (Ok a, s') => f a s'
  | (Raise e, s') => (Raise e, s')
  end.

Definition io_lift {A} (r : result A) : io A := λ s, (r, s).

(** [for x in l: body(x)] *)
Fixpoint for_ {A} (l : list A) (body : A → io unit) : io unit :=
  match l with
  | [] => mret ()
  | x :: l => body x ;; for_ l body
  end.

(** [os.makedirs(path)]: raises [OSError] when the path exists; otherwise
    creates the directory and those leading to it. ([write_output] calls
    it below a directory into which it has just written a file, so that a
    regular file on the way, which would also raise, is not modelled.) *)
Definition os_makedirs (path : string) : io unit := λ s,
  if bool_decide (path ∈ dirs s ∨ is_Some (files s !! path))
  then (Raise OSError, s)
  else (Ok (), mkFs ({[path]} ∪ list_to_set (parents path) ∪ dirs s) (files s)).

(** [np.savetxt(fname, X)] for a one-dimensional [X]: the file is opened
    for writing, which raises [IOError] when [fname] is a directory or
    lies in a directory that does not exist, and replaces what a file of
    that name held. *)
Definition np_savetxt (fname : string) (X : vec) : io unit := λ s,
  let in_directory :=
    match last (parents fname) with
    | Some d => bool_decide (d ∈ dirs s)
    | None => true
    end in
  if bool_decide (fname ∉ dirs s) && in_directory
  then (Ok (), mkFs (dirs s) (<[fname := X]> (files s)))
  else (Raise IOError, s).

Definition eigenspectrum_file (specPath : string) (specNum : nat) : string :=
  specPath +:+ "/eigenspectra_" +:+ pretty specNum +:+ ".dat".

Definition component_file (compPath specName : string) : string :=
  compPath +:+ "/" +:+ specName +:+ ".dat".

Definition write_output (self : pcaSED) (outFolder : string) : io unit :=
  s0 ← io_lift (py_index (spec_list self) 0);
  np_savetxt (outFolder +:+ "/wavelengths.dat") (wavelen s0) ;;
  let specPath := outFolder +:+ "/eigenspectra" in
  os_makedirs specPath ;;
  for_ (zip (rows (eigenspectra self)) (seq 0 (nrows (eigenspectra self))))
       (λ '(spec, specNum), np_savetxt (eigenspectrum_file specPath specNum) spec) ;;
  let compPath := outFolder +:+ "/components" in
  os_makedirs compPath ;;
  for_ (zip (spec_list self) (rows (projected self)))
       (λ '(spec, comps), np_savetxt (component_file compPath (name spec)) comps) ;;
  np_savetxt (outFolder +:+ "/meanSpectrum.dat") (mean_spec self).

(** ** Loading a saved basis *)

(** Modelled from the spec: the [BasisModel] of section 3, as far as it
    is persisted: grid, mean spectrum, eigenspectra in order, and the
    coefficients of each spectrum under its name. *)
Record BasisModel := mkBasis {
  bm_wavelengths : vec;
  bm_mean_spectrum : vec;
  bm_eigenspectra : list vec;
  bm_coefficients : gmap string vec
}.

#[global] Instance BasisModel_eq_dec : EqDecision BasisModel.
Proof. solve_decision. Defined.

(** The basis a fitted instance holds. *)
Definition basis_of (self : pcaSED) : BasisModel :=
  {| bm_wavelengths := default [] (wavelen <$> head (spec_list self));
     bm_mean_spectrum := mean_spec self;
     bm_eigenspectra := rows (eigenspectra self);
     bm_coefficients :=
       list_to_map (zip (name <$> spec_list self) (rows (projected self))) |}.

Fixpoint strip_prefix (pre s : string) : option string :=
  match pre, s with
  | EmptyString, _ => Some s
  | String a pre', String b s' =>
    if bool_decide (a = b) then strip_prefix pre' s' else None
  | String _ _, EmptyString => None
  end.

Fixpoint strip_suffix (suf s : string) : option string :=
  if bool_decide (s = suf) then Some ""
  else match s with
       | EmptyString => None
       | String c s' => String c <$> strip_suffix suf s'
       end.

(** Modelled from the spec: the name under which the coefficient file
    [path] of the directory [compPath] is loaded, its file name without
    the extension (the "filename stem" of section 4.5). *)
Definition stem_of (compPath path : string) : option string :=
  leaf ← strip_prefix (compPath +:+ "/") path;
  stem ← strip_suffix ".dat" leaf;
  if no_slash stem then Some stem else None.

(** Modelled from the spec: reading one file of numbers, one per line;
    a missing file raises. *)
Definition np_loadtxt (fname : string) (s : fs) : result vec :=
  match files s !! fname with
  | Some X => Ok X
  | None => Raise IOError
  end.

(** Modelled from the spec: the eigenspectra files [eigenspectra_0.dat],
    [eigenspectra_1.dat], ... of section 6, read up to the first index
    without a file; there cannot be more of them than files. *)
Fixpoint read_eigenspectra (s : fs) (specPath : string) (fuel specNum : nat)
    : list vec :=
  match fuel with
  | O => []
  | S fuel =>
    match files s !! eigenspectrum_file specPath specNum with
    | Some X => X :: read_eigenspectra s specPath fuel (S specNum)
    | None => []
    end
  end.

(** Modelled from the spec: the files of [components/] as a mapping from
    stem to coefficients. *)
Definition read_components (s : fs) (compPath : string) : gmap string vec :=
  map_fold (λ path X acc,
              match stem_of compPath path with
              | Some stem => <[stem := X]> acc
              | None => acc
              end)
           ∅ (files s).

(** Modelled from the spec: the sources hold no function that reads a
    saved basis back (the tests call one, [load_pca_output]). [load]
    follows section 4.5 and the layout of section 6: it reverses
    [write_output], reading [wavelengths.dat], [meanSpectrum.dat], the
    index-named files of [eigenspectra/] in order, and the files of
    [components/] as a mapping keyed by the file name stems. *)
Definition load (inputDirectory : string) (s : fs) : result BasisModel :=
  wavelengths ← np_loadtxt (inputDirectory +:+ "/wavelengths.dat") s;
  mean_spectrum ← np_loadtxt (inputDirectory +:+ "/meanSpectrum.dat") s;
  Ok {| bm_wavelengths := wavelengths;
        bm_mean_spectrum := mean_spectrum;
        bm_eigenspectra :=
          read_eigenspectra s (inputDirectory +:+ "/eigenspectra")
                            (size (files s)) 0;
        bm_coefficients :=
          read_components s (inputDirectory +:+ "/components") |}.

(** A basis agrees with a fitted instance field for field: same grid,
    same mean spectrum, same eigenspectra, and under the name of each
    spectrum the coefficients of that spectrum. *)
Definition same_basis (bm : BasisModel) (self : pcaSED) : Prop :=
  bm_wavelengths bm = default [] (wavelen <$> head (spec_list self)) ∧
  bm_mean_spectrum bm = mean_spec self ∧
  bm_eigenspectra bm = rows (eigenspectra self) ∧
  dom (bm_coefficients bm) = list_to_set (name <$> spec_list self) ∧
  ∀ i spec comps,
    spec_list self !! i = Some spec →
    rows (projected self) !! i = Some comps →
    bm_coefficients bm !! name spec = Some comps.

(** What [write_output] needs to go through: the output directory is
    there, the two subdirectories and the two files directly under it are
    free, there is a spectrum, and no spectrum name names a path. *)
Record save_ready (self : pcaSED) (outFolder : string) (s : fs) : Prop := {
  ready_wf : fs_wf s;
  ready_out : outFolder ∈ dirs s;
  ready_spectra : spec_list self ≠ [];
  ready_names : Forall (λ spec, no_slash (name spec) = true) (spec_list self);
  ready_eigenspectra :
    (outFolder +:+ "/eigenspectra" ∉ dirs s) ∧
    files s !! (outFolder +:+ "/eigenspectra") = None;
  ready_components :
    (outFolder +:+ "/components" ∉ dirs s) ∧
    files s !! (outFolder +:+ "/components") = None;
  ready_wavelengths : outFolder +:+ "/wavelengths.dat" ∉ dirs s;
  ready_meanSpectrum : outFolder +:+ "/meanSpectrum.dat" ∉ dirs s
}.

(** The disk [write_output] leaves when every step succeeds. *)
Definition saved (self : pcaSED) (outFolder : string) (s : fs) : fs :=
  let specPath := outFolder +:+ "/eigenspectra" in
  let compPath := outFolder +:+ "/components" in
  let files1 :=
    <[outFolder +:+ "/wavelengths.dat" :=
        default [] (wavelen <$> head (spec_list self))]> (files s) in
  let files2 :=
    foldl (λ m x, <[eigenspectrum_file specPath x.2 := x.1]> m)
          files1
          (zip (rows (eigenspectra self)) (seq 0 (nrows (eigenspectra self)))) in
  let files3 :=
    foldl (λ m x, <[component_file compPath (name x.1) := x.2]> m)
          files2
          (zip (spec_list self) (rows (projected self))) in
  mkFs ({[compPath]} ∪ ({[specPath]} ∪ dirs s))
       (<[outFolder +:+ "/meanSpectrum.dat" := mean_spec self]> files3).

(** ** Sample data *)

(** A fitted instance with two spectra, two eigenspectra and three
    wavelengths. *)
Definition sample_fit : pcaSED :=
  {| spec_list :=
       [mkSed "sample.dat" [z 1; z 2; z 3] [z 1; z 1; z 1] None;
        mkSed "sample_2.dat" [z 1; z 2; z 3] [z 1; z 1; z 1] None];
     mean_spec := [z 1; z 2; z 3];
     eigenspectra := Array2 3 [[z 1; z 0; z 0]; [z 0; z 1; z 0]];
     projected := Array2 2 [[z 5; z 7]; [z 11; z 13]];
     explained_var := [];
     mags := Array2 0 [];
     colors := Array2 0 [] |}.

(** A magnitude collaborator for three filters: it answers with the first
    three flux values. *)
Definition sample_mags (w f : vec) : vec := take 3 f.

(** The grid of the reference scenario, [np.arange(200, 1500)]. *)
Definition reference_grid : vec := (λ k : nat, z (200 + Z.of_nat k)) <$> seq 0 1300.

(** A disk with one empty directory, [out]. *)
Definition sample_disk : fs := mkFs {["out"]} ∅.

(** A disk on which a basis was saved before. *)
Definition used_disk : fs :=
  mkFs {["out"; "out/eigenspectra"; "out/components"]}
       {["out/components/old.dat.dat" := [z 1; z 2]]}.

(** A disk on which an earlier basis lies, and a disk on which only
    [components/] is left of one. *)
Definition earlier_save : fs :=
  mkFs {["out"; "out/eigenspectra"; "out/components"]}
       {["out/wavelengths.dat" := [z 7; z 8; z 9];
         "out/meanSpectrum.dat" := [z 4; z 5; z 6];
         "out/eigenspectra/eigenspectra_0.dat" := [z 1; z 1; z 0];
         "out/components/old.dat.dat" := [z 2]]}.

Definition components_left : fs :=
  mkFs {["out"; "out/components"]}
       {["out/components/old.dat.dat" := [z 2]]}.

(** Two files of one name in two subdirectories, as [os.walk] reports
    them, and a fit of the two spectra [loadSpectra] makes of them. *)
Definition twin_tree : walk :=
  [("spectra/a", [], ["sample.dat"]); ("spectra/b", [], ["sample.dat"])].

Definition twin_reader (path : string) : read_outcome :=
  if bool_decide (path = "spectra/a/sample.dat")
  then ReadTable [z 1; z 2; z 3] [z 1; z 1; z 2]
  else ReadTable [z 1; z 2; z 3] [z 2; z 1; z 1].

Definition twin_fit : pcaSED :=
  {| spec_list :=
       [mkSed "sample.dat" [z 1; z 2; z 3] [z 1; z 1; z 2] None;
        mkSed "sample.dat" [z 1; z 2; z 3] [z 2; z 1; z 1] None];
     mean_spec := [z 1; z 2; z 3];
     eigenspectra := Array2 3 [[z 1; z 0; z 0]; [z 0; z 1; z 0]];
     projected := Array2 2 [[z 5; z 7]; [z 11; z 13]];
     explained_var := [];
     mags := Array2 0 [];
     colors := Array2 0 [] |}.

(** Four spectra on a grid of four wavelengths. Normalised, they lie
    around their mean [(1/4, 1/4, 1/4, 1/4)] at [± 1/4] along
    [(1/2, 1/2, -1/2, -1/2)] and at [± 1/8] along [(1/2, -1/2, 1/2, -1/2)]. *)
Definition four_spectra : list Sed :=
  [mkSed "s1.dat" [z 1; z 2; z 3; z 4] [z 3; z 3; z 1; z 1] None;
   mkSed "s2.dat" [z 1; z 2; z 3; z 4] [z 1; z 1; z 3; z 3] None;
   mkSed "s3.dat" [z 1; z 2; z 3; z 4] [z 5; z 3; z 5; z 3] None;
   mkSed "s4.dat" [z 1; z 2; z 3; z 4] [z 3; z 5; z 3; z 5] None].

Definition four_scaled : list vec :=
  (λ spec, scaleSpectrum (flambda spec)) <$> four_spectra.

Definition half : Qc := 1 / z 2.
Definition axis_1 : vec := [half; half; - half; - half].
Definition axis_2 : vec := [half; - half; half; - half].

Definition four_mean : vec := replicate 4 (half * half).

(** The four normalised spectra after the mean is taken off. *)
Definition four_centred : list vec :=
  let e := half * half * half in
  [[e; e; - e; - e]; [- e; - e; e; e];
   [e * half; - (e * half); e * half; - (e * half)];
   [- (e * half); e * half; - (e * half); e * half]].

(** The PCA of these four spectra with one and with two components. *)
Definition four_pca (comps : Z) (X : list vec) : result PCA :=
  if bool_decide (X = four_scaled) then
    if bool_decide (comps = 1%Z)
    then Ok (mkPCA four_mean (Array2 4 [axis_1]) [z 4 / z 5])
    else if bool_decide (comps = 2%Z)
    then Ok (mkPCA four_mean (Array2 4 [axis_1; axis_2])
                   [z 4 / z 5; z 1 / z 5])
    else Raise ValueError
  else Raise ValueError.

(** Resampling a spectrum onto its own grid leaves the flux as it is. *)
Definition resample_same_grid (wavelen flambda wavelen_match : vec) : vec :=
  flambda.

(** Resampling onto wavelengths taken from the spectrum's own grid: the
    flux the spectrum has at each of them (0 at a wavelength that is not
    on its grid). *)
Definition resample_on_grid (wavelen flambda wavelen_match : vec) : vec :=
  (λ w, default 0 (head (snd <$> filter (λ p, p.1 = w) (zip wavelen flambda))))
  <$> wavelen_match.

(** The two spectra of [tests/test_pca.py] ([setUpClass]), on the grid
    [np.arange(200, 1500)]: the flux is 100, with a ramp of slope [a]
    added on the indices 100 to 649 and a ramp of slope [b - a] on the
    indices 650 to 1199. *)
Definition reference_flux (a b : Z) : vec :=
  (λ k : nat,
     let i := Z.of_nat k in
     z (100
        + (if bool_decide (100 ≤ i < 650)%Z then a * (i - 100) else 0)
        + (if bool_decide (650 ≤ i < 1200)%Z then (b - a) * (i - 650) else 0)))
  <$> seq 0 1300.

Definition reference_spectra : list Sed :=
  [mkSed "sample.dat" reference_grid (reference_flux 2 1100) None;
   mkSed "sample_2.dat" reference_grid (reference_flux 1 550) None].

(** Two spectra on a grid of two wavelengths. Normalised they are
    [(1/4, 3/4)] and [(3/4, 1/4)]; the direction in which they differ,
    [(1, -1)], has no unit vector with rational coordinates. *)
Definition two_spectra : list Sed :=
  [mkSed "t1.dat" [z 1; z 2] [z 1; z 3] None;
   mkSed "t2.dat" [z 1; z 2] [z 3; z 1] None].

(** A stand-in for the PCA whose answers are rational for every input:
    [mean_] is the mean of the rows, and the axes are the first [comps]
    rows less the mean, as they are (not made orthonormal). Like
    scikit-learn it raises on rows of different lengths. *)
Definition centring_pca (comps : Z) (X : list vec) : result PCA :=
  let n := length (default [] (head X)) in
  if bool_decide (Forall (λ x : vec, length x = n) X)
  then let m := np_mean_rows n X in
       Ok (mkPCA m (Array2 n (take (Z.to_nat comps) ((λ x, vsub x m) <$> X)))
                 [])
  else Raise ValueError.

(** ** Notions used to state what the code does *)

(** The files of a walk, each with the directory it lies in, in the
    order of the walk. *)
Definition walk_files (tree : walk) : list (string * string) :=
  '(root, _, files) ← tree; (λ fname, (root, fname)) <$> files.

(** The files [loadSpectra] keeps: those read as a table with at least
    one flux value, the first of which is a number. *)
Definition kept (readSED_flambda : string → read_outcome)
    (file : string * string) : bool :=
  match readSED_flambda (file.1 +:+ "/" +:+ file.2) with
  | ReadTable _ (_ :: _) => true
  | _ => false
  end.

(** Each magnitude minus the one before it, the first minus the last;
    one entry fewer than there are magnitudes. *)
Definition wrapped_colors (mags : vec) : vec :=
  zip_with Qcminus mags
           (take (length mags - 1) (default 0 (last mags) :: mags)).

(** The paths below the directory [d]. *)
Definition below (d path : string) : Prop :=
  ∃ rest, path = d +:+ String "/" rest.

(** Column [k] of the table of magnitudes. *)
Definition mag_column (full_mags : list vec) (k : nat) : vec :=
  (λ r : vec, default 0 (r !! k)) <$> full_mags.

(** The instance [specPCA] leaves for the spectra [spec_list_orig], once
    the window [wavelen_set] and the fitted PCA are known. *)
Definition fit_of (magListForSed : vec → vec → vec)
    (resampleSED : vec → vec → vec → vec)
    (wavelen_set : vec) (spectra_pca : PCA) (spec_list_orig : list Sed)
    : pcaSED :=
  let full_mags :=
    (λ spec, magListForSed (wavelen spec) (flambda spec)) <$> spec_list_orig in
  let spec_list := resampled_copy resampleSED wavelen_set <$> spec_list_orig in
  let scaled_fluxes := (λ s, scaleSpectrum (flambda s)) <$> spec_list in
  let n_filters := length (default [] (head full_mags)) in
  {| spec_list := spec_list;
     mean_spec := mean_ spectra_pca;
     eigenspectra := components_ spectra_pca;
     projected := pca_transform spectra_pca scaled_fluxes;
     explained_var := explained_variance_ratio_ spectra_pca;
     mags := np_array2 full_mags;
     colors :=
       np_transpose
         (np_array2 ((λ k, vsub (mag_column full_mags k)
                                (mag_column full_mags (S k)))
                     <$> seq 0 (n_filters - 1))) |}.

(** What [write_output] may do to a disk: it removes nothing, makes no
    directory other than the two below [outFolder], and leaves every
    file that is not below [outFolder] as it was. *)
Definition write_output_frame (outFolder : string) (s s' : fs) : Prop :=
  dirs s ⊆ dirs s' ∧
  dirs s' ⊆ {[outFolder +:+ "/eigenspectra"; outFolder +:+ "/components"]}
            ∪ dirs s ∧
  dom (files s) ⊆ dom (files s') ∧
  ∀ path, ¬ below outFolder path → files s' !! path = files s !! path.

(** ** The PCA and the reconstruction over the real numbers

    The axes of a PCA are unit vectors, and a unit vector along a given
    direction has, for all but special spectra, coordinates that are not
    rational: for the two spectra of [two_spectra] it is
    [(1/√2, -1/√2)]. What [specPCA] does from the PCA on (lines 191-196)
    and [reconstruct_spectra] are therefore embedded once more with real
    numbers in the place of the rationals; the definitions are those
    above, read over [R]. *)
Module OverR.
Local Open Scope R_scope.

Abbreviation vec := (list R).

Record ndarray2 := Array2 { ncols : nat; rows : list vec }.

Definition nrows (a : ndarray2) : nat := length (rows a).

Definition array_wf (a : ndarray2) : Prop :=
  Forall (λ r, length r = ncols a) (rows a).

Definition np_sum (v : vec) : R := foldr Rplus 0 v.
Arguments np_sum : simpl never.

Definition vadd (u v : vec) : vec := zip_with Rplus u v.
Definition vsub (u v : vec) : vec := zip_with Rminus u v.
Definition vscale (c : R) (v : vec) : vec := Rmult c <$> v.
Definition vdot (u v : vec) : R := np_sum (zip_with Rmult u v).

Definition vecmat (n : nat) (a : vec) (b : list vec) : vec :=
  foldr (λ '(ak, bk) acc, vadd (vscale ak bk) acc) (replicate n 0) (zip a b).

Definition np_dot (a b : ndarray2) : result ndarray2 :=
  if bool_decide (ncols a = nrows b)
  then Ok (Array2 (ncols b) ((λ r, vecmat (ncols b) r (rows b)) <$> rows a))
  else Raise ValueError.

Definition np_add_broadcast (v : vec) (a : ndarray2) : result ndarray2 :=
  if bool_decide (length v = ncols a)
  then Ok (Array2 (ncols a) (vadd v <$> rows a))
  else match v with
       | [c] => Ok (Array2 (ncols a) ((λ r : vec, Rplus c <$> r) <$> rows a))
       | _ =>
         if bool_decide (ncols a = 1%nat)
         then Ok (Array2 (length v)
                    ((λ r : vec, (λ x, x + default 0 (head r)) <$> v) <$> rows a))
         else Raise ValueError
       end.

Definition np_cols_to (a : ndarray2) (stop : Z) : ndarray2 :=
  Array2 (py_bound (ncols a) stop) ((λ r : vec, py_slice_to r stop) <$> rows a).

Record PCA := mkPCA {
  mean_ : vec;
  components_ : ndarray2;
  explained_variance_ratio_ : vec
}.

Definition pca_transform (p : PCA) (X : list vec) : ndarray2 :=
  Array2 (nrows (components_ p))
         ((λ x : vec, vdot (vsub x (mean_ p)) <$> rows (components_ p)) <$> X).

(** The attributes lines 191-196 set. *)
Record pcaSED := mkPcaSED {
  mean_spec : vec;
  eigenspectra : ndarray2;
  projected : ndarray2;
  explained_var : vec
}.

(** Lines 191-196 of [specPCA]: the PCA of the normalised fluxes the
    loop has collected, and what is kept of it on the instance. *)
Definition specPCA_pca (sklPCA_fit : Z → list vec → result PCA)
    (scaled_fluxes : list vec) (comps : Z) : result pcaSED :=
  spectra_pca ← sklPCA_fit comps scaled_fluxes;
  Ok {| mean_spec := mean_ spectra_pca;
        eigenspectra := components_ spectra_pca;
        projected := pca_transform spectra_pca scaled_fluxes;
        explained_var := explained_variance_ratio_ spectra_pca |}.

Definition reconstruct_spectra (self : pcaSED) (num_comps : Z)
    : result ndarray2 :=
  prod ← np_dot (np_cols_to (projected self) num_comps) (eigenspectra self);
  np_add_broadcast (mean_spec self) prod.

(** Axes of unit length, orthogonal to each other. *)
Fixpoint orthonormal (V : list vec) : Prop :=
  match V with
  | [] => True
  | v :: V' =>
    vdot v v = 1 ∧ Forall (λ w, vdot v w = 0) V' ∧ orthonormal V'
  end.

(** The two spectra of [two_spectra], normalised, and their PCA with one
    component: the mean [(1/2, 1/2)] and the unit vector along their
    difference. *)
Definition two_scaled : list vec := [[1 / 4; 3 / 4]; [3 / 4; 1 / 4]].

Definition two_pca (comps : Z) (X : list vec) : result PCA :=
  Ok (mkPCA [1 / 2; 1 / 2] (Array2 2 [[- / sqrt 2; / sqrt 2]]) [1]).
End OverR.

(** * Properties *)

Lemma np_sum_cons (x : Qc) (v : vec) : np_sum (x :: v) = x + np_sum v.
Proof. reflexivity. Qed.

Lemma np_sum_div (v : vec) (c : Qc) :
  np_sum ((λ x, x / c) <$> v) = np_sum v / c.
Proof.
  induction v as [|x v IH].
  - change (0 = 0 / c). unfold Qcdiv. by rewrite Qcmult_0_l.
  - rewrite fmap_cons, !np_sum_cons, IH. unfold Qcdiv. ring.
Qed.

Lemma np_sum_vscale (c : Qc) (v : vec) : np_sum (vscale c v) = c * np_sum v.
Proof.
  unfold vscale. induction v as [|x v IH].
  - change (0 = c * 0). ring.
  - rewrite fmap_cons, !np_sum_cons, IH. ring.
Qed.

(** C7. For a flux array whose sum is not zero, [scaleSpectrum] is the
    elementwise quotient by that sum, and the result sums to one. *)
Theorem scaleSpectrum_sums_to_one (flux : vec) :
  np_sum flux ≠ 0 →
  scaleSpectrum flux = (λ x, x / np_sum flux) <$> flux ∧
  np_sum (scaleSpectrum flux) = 1.
Proof.
  intros Hs. split; [done|].
  unfold scaleSpectrum. rewrite np_sum_div. by field.
Qed.

Lemma scaleSpectrum_sums_to_one_witness :
  let flux := [Q2Qc 3; Q2Qc 1; Q2Qc 4] in
  scaleSpectrum flux = (λ x, x / np_sum flux) <$> flux ∧
  np_sum (scaleSpectrum flux) = 1.
Proof. apply scaleSpectrum_sums_to_one. compute_done. Defined.

(** C10 (as stated) fails on the numbers the code computes with. In
    float64 the flux [1, 4, 1], the same flux times [0.1] and the
    normalised flux normalised once more all have a nonzero sum, but
    the last two do not give what normalising [1, 4, 1] gives: each
    value differs in its last binary digit. *)
Lemma scaleSpectrum_f64_not_scale_invariant :
  let flux := [1; 4; 1]%float in
  let c := (1 / 10)%float in
  let scaled := (λ x, c * x)%float <$> flux in
  (PrimFloat.eqb (np_sum_f64 flux) 0 = false ∧
   PrimFloat.eqb c 0 = false ∧
   PrimFloat.eqb (np_sum_f64 scaled) 0 = false ∧
   PrimFloat.eqb (np_sum_f64 (scaleSpectrum_f64 flux)) 0 = false) ∧
  scaleSpectrum_f64 flux
  = [0x1.5555555555555p-3; 0x1.5555555555555p-1; 0x1.5555555555555p-3]%float ∧
  scaleSpectrum_f64 scaled
  = [0x1.5555555555556p-3; 0x1.5555555555556p-1; 0x1.5555555555556p-3]%float ∧
  scaleSpectrum_f64 (scaleSpectrum_f64 flux)
  = [0x1.5555555555556p-3; 0x1.5555555555556p-1; 0x1.5555555555556p-3]%float ∧
  scaleSpectrum_f64 scaled ≠ scaleSpectrum_f64 flux ∧
  scaleSpectrum_f64 (scaleSpectrum_f64 flux) ≠ scaleSpectrum_f64 flux.
Proof.
  intros flux c scaled.
  assert (∀ l : list float,
            l = [0x1.5555555555556p-3; 0x1.5555555555556p-1;
                 0x1.5555555555556p-3]%float →
            l ≠ scaleSpectrum_f64 flux) as Hne.
  { intros l -> Heq.
    apply (f_equal (λ l, PrimFloat.eqb (default 0%float (head l))
                                       0x1.5555555555556p-3%float)) in Heq.
    vm_compute in Heq. discriminate Heq. }
  split; [repeat split; vm_compute; reflexivity|].
  split; [vm_compute; reflexivity|].
  split; [vm_compute; reflexivity|].
  split; [vm_compute; reflexivity|].
  split; apply Hne; vm_compute; reflexivity.
Qed.

(** C10 (amended). In exact arithmetic, normalisation does not see a
    common nonzero factor of the flux, and normalising twice is
    normalising once. *)
Theorem scaleSpectrum_scale_invariant (flux : vec) (c : Qc) :
  np_sum flux ≠ 0 → c ≠ 0 → np_sum (vscale c flux) ≠ 0 →
  scaleSpectrum (vscale c flux) = scaleSpectrum flux ∧
  scaleSpectrum (scaleSpectrum flux) = scaleSpectrum flux.
Proof.
  intros Hs Hc _. split.
  - unfold scaleSpectrum. rewrite np_sum_vscale. unfold vscale.
    rewrite <-list_fmap_compose. apply list_fmap_ext. intros _ x _. simpl.
    by field.
  - unfold scaleSpectrum at 1 2. rewrite np_sum_div.
    replace (np_sum flux / np_sum flux) with 1 by (by field).
    rewrite <-list_fmap_compose. unfold scaleSpectrum.
    apply list_fmap_ext. intros _ x _. simpl. by field.
Qed.

Lemma scaleSpectrum_scale_invariant_witness :
  let flux := [Q2Qc 3; Q2Qc 1; Q2Qc 4] in
  let c := Q2Qc (5 # 2) in
  scaleSpectrum (vscale c flux) = scaleSpectrum flux ∧
  scaleSpectrum (scaleSpectrum flux) = scaleSpectrum flux.
Proof. apply scaleSpectrum_scale_invariant; compute_done. Defined.

(** ** Slices and products *)

Lemma py_bound_ge (len : nat) (k : Z) :
  (Z.of_nat len ≤ k)%Z → py_bound len k = len.
Proof. unfold py_bound. case_bool_decide; lia. Qed.

Lemma py_bound_in_range (len : nat) (k : Z) :
  (0 ≤ k ≤ Z.of_nat len)%Z → py_bound len k = Z.to_nat k.
Proof. unfold py_bound. case_bool_decide; lia. Qed.

Lemma py_bound_negative (len : nat) (k : Z) :
  (k < 0)%Z → (0 < len)%nat → (py_bound len k < len)%nat.
Proof. unfold py_bound. case_bool_decide; lia. Qed.

Lemma py_slice_to_all {A} (l : list A) (k : Z) :
  (Z.of_nat (length l) ≤ k)%Z → py_slice_to l k = l.
Proof.
  intros Hk. unfold py_slice_to. rewrite py_bound_ge by done.
  by rewrite firstn_all.
Qed.

Lemma np_cols_to_all (a : ndarray2) (k : Z) :
  array_wf a → (Z.of_nat (ncols a) ≤ k)%Z → np_cols_to a k = a.
Proof.
  destruct a as [n rs]. unfold array_wf, np_cols_to. simpl.
  intros Hwf Hk. rewrite py_bound_ge by done. f_equal.
  induction Hwf as [|r rs' Hr _ IH]; [done|].
  rewrite fmap_cons, IH. f_equal. apply py_slice_to_all. lia.
Qed.

Lemma truncated_reconstruction_all (self : pcaSED) :
  fitted_wf self →
  truncated_reconstruction self (nrows (eigenspectra self))
  = (λ coeff : vec,
       vadd (mean_spec self)
            (vecmat (ncols (eigenspectra self)) coeff
                    (rows (eigenspectra self))))
    <$> rows (projected self).
Proof.
  intros [_ Hp Hk _ _]. unfold truncated_reconstruction.
  apply Forall_fmap_ext. eapply Forall_impl; [exact Hp|].
  intros coeff Hc. simpl in Hc.
  rewrite !firstn_all2; [done|unfold nrows; lia|unfold nrows in *; lia].
Qed.

(** With [num_comps] at least the number of eigenspectra the slice keeps
    every coefficient and the product is defined. *)
Lemma reconstruct_spectra_all (self : pcaSED) (num_comps : Z) :
  fitted_wf self →
  (Z.of_nat (nrows (eigenspectra self)) ≤ num_comps)%Z →
  reconstruct_spectra self num_comps
  = Ok (Array2 (ncols (eigenspectra self))
          (truncated_reconstruction self (nrows (eigenspectra self)))).
Proof.
  intros Hwf Hk. rewrite truncated_reconstruction_all by done.
  destruct Hwf as [He Hp Hc Hm Hs].
  unfold reconstruct_spectra.
  rewrite np_cols_to_all by (done || lia).
  unfold np_dot. rewrite bool_decide_eq_true_2 by done. simpl.
  unfold np_add_broadcast. simpl. rewrite bool_decide_eq_true_2 by done.
  by rewrite <-list_fmap_compose.
Qed.

(** C1. [reconstruct_spectra] is documented to use only [num_comps]
    principal components, but whenever [num_comps] is smaller than the
    number of eigenspectra the product of the cut coefficients with the
    uncut eigenspectra is not defined and [ValueError] is raised; no
    truncated reconstruction is returned. *)
Theorem reconstruct_spectra_fewer_components_raises
    (self : pcaSED) (num_comps : Z) :
  fitted_wf self →
  (0 ≤ num_comps < Z.of_nat (nrows (eigenspectra self)))%Z →
  reconstruct_spectra self num_comps = Raise ValueError ∧
  reconstruct_spectra self num_comps
  ≠ Ok (Array2 (ncols (eigenspectra self))
          (truncated_reconstruction self (Z.to_nat num_comps))).
Proof.
  intros [_ _ Hc _ _] Hk.
  assert (reconstruct_spectra self num_comps = Raise ValueError) as ->; [|done].
  unfold reconstruct_spectra, np_dot. simpl.
  rewrite py_bound_in_range by lia.
  rewrite bool_decide_eq_false_2 by lia. done.
Qed.

Lemma sample_fit_wf : fitted_wf sample_fit.
Proof. split; try done; unfold array_wf; simpl; repeat constructor. Qed.

Lemma reconstruct_spectra_fewer_components_raises_witness :
  reconstruct_spectra sample_fit 1 = Raise ValueError ∧
  reconstruct_spectra sample_fit 1
  ≠ Ok (Array2 3 (truncated_reconstruction sample_fit 1)).
Proof.
  apply (reconstruct_spectra_fewer_components_raises sample_fit 1).
  - exact sample_fit_wf.
  - compute_done.
Defined.

(** C3 (as stated) fails: asking the sample fit, which has two
    eigenspectra, for three components raises nothing. *)
Lemma reconstruct_spectra_too_many_no_error :
  fitted_wf sample_fit ∧
  (Z.of_nat (nrows (eigenspectra sample_fit)) < 3)%Z ∧
  ¬ raises (reconstruct_spectra sample_fit 3).
Proof.
  split; [exact sample_fit_wf|]. split; [compute_done|].
  rewrite reconstruct_spectra_all by (exact sample_fit_wf || compute_done).
  intros [e He]. discriminate He.
Qed.

(** C3 (amended). A component count above the number of eigenspectra is
    not rejected: the slice keeps all coefficients and the complete
    reconstruction is returned. A negative count is rejected, with
    [ValueError], as soon as there is at least one eigenspectrum. *)
Theorem reconstruct_spectra_component_count (self : pcaSED) (num_comps : Z) :
  fitted_wf self →
  (Z.of_nat (nrows (eigenspectra self)) < num_comps)%Z ∨
  (num_comps < 0)%Z ∧ (0 < nrows (eigenspectra self))%nat →
  reconstruct_spectra self num_comps
  = if bool_decide (num_comps < 0)%Z then Raise ValueError
    else Ok (Array2 (ncols (eigenspectra self))
               (truncated_reconstruction self (nrows (eigenspectra self)))).
Proof.
  intros Hwf [Hk|[Hk Hpos]].
  - rewrite bool_decide_eq_false_2 by lia.
    apply reconstruct_spectra_all; [done|lia].
  - rewrite bool_decide_eq_true_2 by done.
    destruct Hwf as [_ _ Hc _ _].
    unfold reconstruct_spectra, np_dot. simpl.
    rewrite bool_decide_eq_false_2; [done|].
    pose proof (py_bound_negative (ncols (projected self)) num_comps Hk).
    lia.
Qed.

Lemma reconstruct_spectra_component_count_witness :
  reconstruct_spectra sample_fit 3
  = Ok (Array2 3 (truncated_reconstruction sample_fit 2)) ∧
  reconstruct_spectra sample_fit (-1) = Raise ValueError.
Proof.
  split.
  - apply (reconstruct_spectra_component_count sample_fit 3).
    + exact sample_fit_wf.
    + left. compute_done.
  - apply (reconstruct_spectra_component_count sample_fit (-1)).
    + exact sample_fit_wf.
    + right. compute_done.
Defined.

(** ** Fitting *)

(** C6. An empty directory gives no spectra, and [specPCA] on no spectra
    raises (on [self.spec_list_orig[0]]) whatever the collaborators do; no
    instance is returned. *)
Theorem specPCA_no_spectra_raises
    (readSED_flambda : string → read_outcome)
    (magListForSed : vec → vec → vec) (resampleSED : vec → vec → vec → vec)
    (sklPCA_fit : Z → list vec → result PCA)
    (directory : string) (comps : Z) (minWavelen maxWavelen : Qc) :
  loadSpectra readSED_flambda [(directory, [], [])] = [] ∧
  specPCA magListForSed resampleSED sklPCA_fit [] comps minWavelen maxWavelen
  = Raise IndexError.
Proof. split; reflexivity. Qed.

(** ** Colours *)

(** The colours [specPCA] computes from the magnitudes of the input
    spectra are the adjacent differences. *)
Lemma specPCA_colors_adjacent :
  ∃ self,
    specPCA sample_mags resample_same_grid four_pca four_spectra 2 (z 1) (z 4)
    = Ok self ∧
    rows (colors self) = adjacent_colors <$> rows (mags self).
Proof.
  destruct (specPCA sample_mags resample_same_grid four_pca four_spectra 2
              (z 1) (z 4)) as [self|e] eqn:Hfit; [|by vm_compute in Hfit].
  exists self. split; [done|].
  assert ((self' ← specPCA sample_mags resample_same_grid four_pca
                     four_spectra 2 (z 1) (z 4);
           Ok (bool_decide (rows (colors self')
                            = adjacent_colors <$> rows (mags self'))))
          = Ok true) as Hcheck by (vm_compute; reflexivity).
  rewrite Hfit in Hcheck. injection Hcheck as Hcheck.
  exact (bool_decide_eq_true_1 _ Hcheck).
Qed.

(** C2. The colours of [calc_new_colors] are not the adjacent differences
    [mags[i] - mags[i+1]]: line 246 subtracts [mags[x-1]] from [mags[x]],
    and for [x = 0] that is the last magnitude, so three magnitudes
    [m0, m1, m2] give [m0 - m2, m1 - m0]. With three filters and the
    magnitudes [6, 9, 3] and [12, 15, 3] of the two reconstructed sample
    spectra the code returns [3, 3] and [9, 3] where the adjacent
    differences are [-3, 6] and [-3, 12]. *)
Theorem calc_new_colors_not_adjacent :
  (∀ (f0 f1 f2 : string) (m0 m1 m2 : Qc),
     colors_of_mags [f0; f1; f2] [m0; m1; m2] = Ok [m0 - m2; m1 - m0] ∧
     adjacent_colors [m0; m1; m2] = [m0 - m1; m1 - m2]) ∧
  calc_new_colors sample_mags ["u"; "g"; "r"] sample_fit 2
  = Ok [[z 3; z 3]; [z 9; z 3]] ∧
  (rows <$> reconstruct_spectra sample_fit 2)
  = Ok [[z 6; z 9; z 3]; [z 12; z 15; z 3]] ∧
  adjacent_colors <$> [[z 6; z 9; z 3]; [z 12; z 15; z 3]]
  = [[z (-3); z 6]; [z (-3); z 12]].
Proof.
  split; [intros; split; reflexivity|]. repeat split; compute_done.
Qed.

(** ** The wavelength window *)

Lemma py_index_head {A} (l : list A) :
  py_index l 0 = match head l with Some x => Ok x | None => Raise IndexError end.
Proof. by destruct l. Qed.

Lemma py_index_last {A} (l : list A) :
  py_index l (-1) = match last l with Some x => Ok x | None => Raise IndexError end.
Proof.
  unfold py_index. simpl.
  destruct l as [|x l _] using rev_ind; [done|].
  rewrite last_snoc, length_app. simpl.
  rewrite bool_decide_eq_false_2 by lia.
  replace (Z.to_nat (-1 + Z.of_nat (length l + 1))) with (length l) by lia.
  by rewrite list_lookup_middle.
Qed.

Section window.
Variables lo hi : Qc.

Let below (l : vec) : nat := length (filter (λ w, w < lo) l).
Let upto (l : vec) : nat := length (filter (λ w, w ≤ hi) l).

Lemma filter_below_nil (x : Qc) (l : vec) :
  lo ≤ x → Forall (Qcle x) l → filter (λ w, w < lo) (x :: l) = [].
Proof.
  intros Hx Hl. rewrite filter_cons_False by (by apply Qcle_not_lt).
  induction Hl as [|y l Hy _ IH]; [done|].
  rewrite filter_cons_False; [done|].
  apply Qcle_not_lt. by trans x.
Qed.

Lemma filter_upto_nil (x : Qc) (l : vec) :
  hi < x → Forall (Qcle x) l → filter (λ w, w ≤ hi) (x :: l) = [].
Proof.
  intros Hx Hl.
  assert (∀ y, x ≤ y → ¬ y ≤ hi) as Hgt.
  { intros y Hy. apply Qclt_not_le. by eapply Qclt_le_trans. }
  rewrite filter_cons_False by (by apply Hgt).
  induction Hl as [|y l Hy _ IH]; [done|].
  by rewrite filter_cons_False by (by apply Hgt).
Qed.

Lemma filter_window_nil (x : Qc) (l : vec) :
  hi < x → Forall (Qcle x) l → filter (λ w, lo ≤ w ∧ w ≤ hi) (x :: l) = [].
Proof.
  intros Hx Hl.
  assert (∀ y, x ≤ y → ¬ (lo ≤ y ∧ y ≤ hi)) as Hgt.
  { intros y Hy [_ Hy']. revert Hy'. apply Qclt_not_le.
    by eapply Qclt_le_trans. }
  rewrite filter_cons_False by (by apply Hgt).
  induction Hl as [|y l Hy _ IH]; [done|].
  by rewrite filter_cons_False by (by apply Hgt).
Qed.

Lemma np_where_upto_nil (i : Z) (l : vec) :
  filter (λ w, w ≤ hi) l = [] →
  np_where_from i (λ w, bool_decide (w ≤ hi)) l = [].
Proof.
  revert i. induction l as [|x l IH]; intros i Hf; [done|]. simpl.
  rewrite filter_cons in Hf. destruct (decide (x ≤ hi)); [done|].
  rewrite bool_decide_eq_false_2 by done. by apply IH.
Qed.

(** The first index whose wavelength is at least [lo] is the number of
    wavelengths below [lo]. *)
Lemma np_where_first (i : Z) (l : vec) :
  StronglySorted Qcle l → Exists (Qcle lo) l →
  head (np_where_from i (λ w, bool_decide (lo ≤ w)) l)
  = Some (i + Z.of_nat (below l))%Z.
Proof.
  intros Hs. revert i. induction Hs as [|x l _ IH Hx]; intros i Hex.
  { by apply Exists_nil in Hex. }
  simpl. unfold below. destruct (decide (lo ≤ x)) as [Hlo|Hlo].
  - rewrite bool_decide_eq_true_2 by done.
    rewrite filter_below_nil by done. simpl. f_equal. lia.
  - rewrite bool_decide_eq_false_2 by done.
    rewrite filter_cons_True by (by apply Qcnot_le_lt).
    apply Exists_cons in Hex as [?|Hex]; [done|].
    rewrite IH by done. unfold below. simpl. f_equal. lia.
Qed.

(** The last index whose wavelength is at most [hi] is one less than
    the number of wavelengths up to [hi]. *)
Lemma np_where_last (i : Z) (l : vec) :
  StronglySorted Qcle l → Exists (λ w, w ≤ hi) l →
  last (np_where_from i (λ w, bool_decide (w ≤ hi)) l)
  = Some (i + Z.of_nat (upto l) - 1)%Z.
Proof.
  intros Hs. revert i. induction Hs as [|x l Hs IH Hx]; intros i Hex.
  { by apply Exists_nil in Hex. }
  simpl. unfold upto. destruct (decide (x ≤ hi)) as [Hhi|Hhi].
  - rewrite bool_decide_eq_true_2 by done.
    rewrite filter_cons_True by done. rewrite last_cons.
    destruct (decide (Exists (λ w, w ≤ hi) l)) as [Hex'|Hex'].
    + rewrite IH by done. unfold upto. simpl. f_equal. lia.
    + assert (filter (λ w, w ≤ hi) l = []) as Hnil.
      { apply not_Exists_Forall in Hex'; [|apply _].
        clear -Hex'. induction Hex' as [|y l Hy _ IH]; [done|].
        by rewrite filter_cons_False. }
      rewrite np_where_upto_nil, Hnil by done. simpl. f_equal. lia.
  - exfalso. apply Qcnot_le_lt in Hhi.
    pose proof (filter_upto_nil x l Hhi Hx) as Hnil.
    apply Exists_exists in Hex as (y & Hy & Hle).
    by apply (filter_nil_not_elem_of _ _ y Hnil Hle).
Qed.

(** In a sorted grid the wavelengths of the window are the ones from
    position [below] up to position [upto]. *)
Lemma window_is_slice (l : vec) :
  StronglySorted Qcle l →
  take (upto l - below l) (drop (below l) l)
  = filter (λ w, lo ≤ w ∧ w ≤ hi) l.
Proof.
  induction 1 as [|x l Hs IH Hx]; [done|]. unfold below, upto in *.
  destruct (decide (lo ≤ x)) as [Hlo|Hlo];
    destruct (decide (x ≤ hi)) as [Hhi|Hhi].
  - rewrite filter_below_nil by done.
    rewrite (filter_cons_True (λ w, w ≤ hi)) by done.
    rewrite (filter_cons_True (λ w, lo ≤ w ∧ w ≤ hi)) by done.
    simpl. f_equal. rewrite <-IH.
    assert (filter (λ w, w < lo) l = []) as ->; [|by rewrite Nat.sub_0_r].
    pose proof (filter_below_nil x l Hlo Hx) as Hnil.
    by rewrite filter_cons_False in Hnil by (by apply Qcle_not_lt).
  - apply Qcnot_le_lt in Hhi.
    by rewrite filter_upto_nil, filter_window_nil by done.
  - rewrite (filter_cons_True (λ w, w < lo)) by (by apply Qcnot_le_lt).
    rewrite (filter_cons_True (λ w, w ≤ hi)) by done.
    rewrite (filter_cons_False (λ w, lo ≤ w ∧ w ≤ hi)) by (by intros []).
    simpl. exact IH.
  - apply Qcnot_le_lt in Hhi.
    by rewrite filter_upto_nil, filter_window_nil by done.
Qed.

Lemma wavelen_window_sorted (wl : vec) :
  Sorted Qcle wl → Exists (Qcle lo) wl → Exists (λ w, w ≤ hi) wl →
  wavelen_window wl lo hi = Ok (filter (λ w, lo ≤ w ∧ w ≤ hi) wl).
Proof.
  intros Hs Hlo Hhi. apply (Sorted_StronglySorted _ _) in Hs.
  unfold wavelen_window, np_where.
  rewrite py_index_head, np_where_first by done. simpl.
  rewrite py_index_last, np_where_last by done. simpl.
  rewrite <-window_is_slice by done. f_equal.
  assert (below wl ≤ length wl)%nat by apply length_filter.
  assert (upto wl ≤ length wl)%nat by apply length_filter.
  unfold py_slice. rewrite !py_bound_in_range by lia.
  f_equal; [|f_equal]; lia.
Qed.
End window.

Lemma mapM_result_Ok {A B C} (f : B → result C) (h : A → B) (g : A → C)
    (l : list A) :
  Forall (λ x, f (h x) = Ok (g x)) l → mapM f (h <$> l) = Ok (g <$> l).
Proof.
  induction 1 as [|x l Hx _ IH]; [done|].
  rewrite !fmap_cons. simpl. by rewrite Hx, IH.
Qed.

Lemma py_index_nat {A} (l : list A) (k : nat) :
  py_index l (Z.of_nat k)
  = match l !! k with Some x => Ok x | None => Raise IndexError end.
Proof.
  unfold py_index.
  rewrite (bool_decide_eq_false_2 (Z.of_nat k < 0)%Z) by lia. cbv zeta.
  rewrite (bool_decide_eq_false_2 (Z.of_nat k < 0)%Z) by lia.
  by rewrite Nat2Z.id.
Qed.

Lemma py_range2_seq (n : Z) : py_range2 0 n = Z.of_nat <$> seq 0 (Z.to_nat n).
Proof. unfold py_range2. by rewrite Z.sub_0_r. Qed.

(** The colour loop of [specPCA] never raises: it takes the difference
    of each column of magnitudes with the next. *)
Lemma color_loop (full_mags : list vec) :
  let full_mags_T := np_transpose (np_array2 full_mags) in
  mapM (λ color_num,
      a ← py_index (rows full_mags_T) color_num;
      b ← py_index (rows full_mags_T) (color_num + 1);
      Ok (vsub a b))
    (py_range2 0 (Z.of_nat (nrows full_mags_T) - 1))
  = Ok ((λ k, vsub (mag_column full_mags k) (mag_column full_mags (S k)))
        <$> seq 0 (length (default [] (head full_mags)) - 1)).
Proof.
  intros T. set (n := length (default [] (head full_mags))).
  assert (rows T = mag_column full_mags <$> seq 0 n) as HT by done.
  assert (nrows T = n) as Hn.
  { unfold nrows. by rewrite HT, length_fmap, length_seq. }
  rewrite Hn, py_range2_seq.
  replace (Z.to_nat (Z.of_nat n - 1)) with (n - 1)%nat by lia.
  apply mapM_result_Ok.
  apply Forall_forall. intros k Hk%elem_of_seq.
  rewrite py_index_nat, HT, list_lookup_fmap.
  rewrite (proj2 (lookup_seq 0 n k k)) by lia. simpl.
  replace (Z.of_nat k + 1)%Z with (Z.of_nat (S k)) by lia.
  rewrite py_index_nat, list_lookup_fmap.
  by rewrite (proj2 (lookup_seq 0 n (S k) (S k))) by lia.
Qed.

Section fit_cases.
Variable magListForSed : vec → vec → vec.
Variable resampleSED : vec → vec → vec → vec.
Variable sklPCA_fit : Z → list vec → result PCA.

(** [specPCA] without its loops. *)
Lemma specPCA_cases (spec_list_orig : list Sed) (comps : Z)
    (minWavelen maxWavelen : Qc) :
  specPCA magListForSed resampleSED sklPCA_fit spec_list_orig comps
          minWavelen maxWavelen
  = match spec_list_orig with
    | [] => Raise IndexError
    | first :: _ =>
      wavelen_set ← wavelen_window (wavelen first) minWavelen maxWavelen;
      spectra_pca ← sklPCA_fit comps
        ((λ spec, scaleSpectrum
                    (resampleSED (wavelen spec) (flambda spec) wavelen_set))
         <$> spec_list_orig);
      Ok (fit_of magListForSed resampleSED wavelen_set spectra_pca
                 spec_list_orig)
    end.
Proof.
  destruct spec_list_orig as [|first rest]; [done|].
  unfold specPCA. rewrite py_index_head. cbn [head mbind result_bind].
  destruct (wavelen_window _ _ _) as [wavelen_set|e]; [|done].
  cbn [mbind result_bind]. rewrite color_loop. cbn [mbind result_bind].
  unfold fit_of. cbv zeta.
  assert ((λ s, scaleSpectrum (flambda s))
          <$> (resampled_copy resampleSED wavelen_set <$> first :: rest)
          = (λ spec, scaleSpectrum
                       (resampleSED (wavelen spec) (flambda spec) wavelen_set))
            <$> first :: rest) as -> by (by rewrite <-list_fmap_compose).
  by destruct (sklPCA_fit _ _).
Qed.
End fit_cases.

(** C8. When the first spectrum's grid is sorted, the grid [specPCA]
    keeps is exactly the sub-sequence of its wavelengths inside the
    window; whenever the PCA of the normalised spectra on that grid
    returns, [specPCA] returns a fit, and every spectrum of a fit is
    given that grid. (The window has to reach the grid from both sides,
    as otherwise the index lookup raises.) *)
Theorem specPCA_wavelength_grid
    (magListForSed : vec → vec → vec) (resampleSED : vec → vec → vec → vec)
    (sklPCA_fit : Z → list vec → result PCA)
    (first : Sed) (rest : list Sed) (comps : Z) (minWavelen maxWavelen : Qc) :
  Sorted Qcle (wavelen first) →
  Exists (Qcle minWavelen) (wavelen first) →
  Exists (λ w, w ≤ maxWavelen) (wavelen first) →
  let grid := filter (λ w, minWavelen ≤ w ∧ w ≤ maxWavelen) (wavelen first) in
  wavelen_window (wavelen first) minWavelen maxWavelen = Ok grid ∧
  (∀ spectra_pca,
     sklPCA_fit comps
       ((λ spec, scaleSpectrum
                   (resampleSED (wavelen spec) (flambda spec) grid))
        <$> first :: rest) = Ok spectra_pca →
     ∃ self,
       specPCA magListForSed resampleSED sklPCA_fit (first :: rest) comps
               minWavelen maxWavelen = Ok self ∧
       Forall (λ s, wavelen s = grid) (spec_list self) ∧
       length (spec_list self) = S (length rest)) ∧
  ∀ self,
    specPCA magListForSed resampleSED sklPCA_fit (first :: rest) comps
            minWavelen maxWavelen = Ok self →
    Forall (λ s, wavelen s = grid) (spec_list self) ∧
    length (spec_list self) = S (length rest).
Proof.
  intros Hs Hlo Hhi grid.
  pose proof (wavelen_window_sorted _ _ _ Hs Hlo Hhi) as Hw. fold grid in Hw.
  split; [done|].
  assert (∀ spectra_pca,
            Forall (λ s, wavelen s = grid)
              (spec_list (fit_of magListForSed resampleSED grid spectra_pca
                                 (first :: rest))) ∧
            length (spec_list (fit_of magListForSed resampleSED grid
                                      spectra_pca (first :: rest)))
            = S (length rest)) as Hfit.
  { intros spectra_pca. unfold fit_of. cbv zeta. cbn [spec_list]. split.
    - apply Forall_fmap. by apply Forall_true.
    - by rewrite length_fmap. }
  rewrite specPCA_cases, Hw. cbn [mbind result_bind]. split.
  - intros spectra_pca ->. cbn [mbind result_bind]. by eexists.
  - intros self. destruct (sklPCA_fit _ _) as [spectra_pca|e]; [|done].
    cbn [mbind result_bind]. by intros [= <-].
Qed.

(** [centring_pca] returns on rows of one length. *)
Lemma centring_pca_returns (comps : Z) (X : list vec) (n : nat) :
  Forall (λ x, length x = n) X → ∃ p, centring_pca comps X = Ok p.
Proof.
  intros Hlen. unfold centring_pca. cbv zeta.
  rewrite bool_decide_eq_true_2; [by eexists|].
  destruct Hlen as [|x X Hx HX]; [done|]. cbn [head default]. unfold id.
  rewrite Hx. by constructor.
Qed.

(** The reference scenario ([tests/test_pca.py]): on the grid of 1300
    points from 200 in unit steps, the window [250, 1300] keeps the
    indices 50 to 1100, and the fit of the two reference spectra holds
    both of them on that grid. *)
Lemma specPCA_wavelength_grid_reference :
  wavelen_window reference_grid (z 250) (z 1300)
  = Ok (py_slice reference_grid 50 1101) ∧
  ∃ self,
    specPCA sample_mags resample_on_grid centring_pca reference_spectra 2
            (z 250) (z 1300) = Ok self ∧
    Forall (λ s, wavelen s = py_slice reference_grid 50 1101)
           (spec_list self) ∧
    length (spec_list self) = 2%nat.
Proof.
  assert (filter (λ w, z 250 ≤ w ∧ w ≤ z 1300) reference_grid
          = py_slice reference_grid 50 1101) as Hgrid by compute_done.
  destruct (specPCA_wavelength_grid sample_mags resample_on_grid centring_pca
              (mkSed "sample.dat" reference_grid (reference_flux 2 1100) None)
              [mkSed "sample_2.dat" reference_grid (reference_flux 1 550) None]
              2 (z 250) (z 1300)) as (Hw & Hfit & _); [compute_done..|].
  cbn [wavelen] in Hw, Hfit. rewrite Hgrid in Hw, Hfit. split; [exact Hw|].
  destruct (centring_pca_returns 2
              ((λ spec, scaleSpectrum
                          (resample_on_grid (wavelen spec) (flambda spec)
                             (py_slice reference_grid 50 1101)))
               <$> reference_spectra)
              (length (py_slice reference_grid 50 1101))) as [p Hp].
  { apply Forall_fmap, Forall_true. intros spec.
    unfold compose, scaleSpectrum, resample_on_grid. cbv zeta.
    by rewrite !length_fmap. }
  exact (Hfit p Hp).
Defined.

(** ** Paths *)

Lemma string_app_nil (t : string) : "" +:+ t = t.
Proof. reflexivity. Qed.

Lemma string_app_cons (c : ascii) (s t : string) :
  String c s +:+ t = String c (s +:+ t).
Proof. reflexivity. Qed.

Lemma string_app_assoc (s t u : string) : (s +:+ t) +:+ u = s +:+ t +:+ u.
Proof.
  induction s as [|c s IH]; [done|].
  by rewrite !string_app_cons, IH.
Qed.

Lemma string_app_length (s t : string) :
  String.length (s +:+ t) = (String.length s + String.length t)%nat.
Proof.
  induction s as [|c s IH]; [done|].
  rewrite string_app_cons. simpl. by rewrite IH.
Qed.

Lemma no_slash_app (s t : string) :
  no_slash (s +:+ t) = no_slash s && no_slash t.
Proof.
  induction s as [|c s IH]; [done|].
  rewrite string_app_cons. simpl. rewrite IH. by rewrite andb_assoc.
Qed.

Lemma no_slash_pretty_N_go (x : N) (s : string) :
  no_slash s = true → no_slash (pretty_N_go x s) = true.
Proof.
  revert s. induction (N.lt_wf_0 x) as [x _ IH]; intros s Hs.
  assert (x = 0 ∨ 0 < x)%N as [->|Hpos] by lia.
  - by rewrite pretty_N_go_0.
  - rewrite pretty_N_go_step by done. apply IH.
    + by apply N.div_lt.
    + simpl. rewrite Hs, andb_true_r. apply bool_decide_eq_true_2.
      unfold pretty_N_char. by repeat case_match.
Qed.

Lemma no_slash_pretty (n : nat) : no_slash (pretty n) = true.
Proof.
  unfold pretty, pretty_nat, pretty, pretty_N.
  case_decide; [done|]. by apply no_slash_pretty_N_go.
Qed.

Lemma parents_no_slash (s : string) : no_slash s = true → parents s = [].
Proof.
  induction s as [|c s IH]; [done|]. simpl.
  intros [Hc Hs]%andb_true_iff. apply bool_decide_eq_true_1 in Hc.
  rewrite bool_decide_eq_false_2 by done. by rewrite IH.
Qed.

Lemma parents_app (d leaf : string) :
  parents (d +:+ String "/" leaf)
  = parents d ++ d :: ((λ q, d +:+ String "/" q) <$> parents leaf).
Proof.
  induction d as [|c d IH].
  - reflexivity.
  - rewrite string_app_cons. simpl. rewrite IH.
    rewrite fmap_app, fmap_cons, <-list_fmap_compose. by rewrite <-app_assoc.
Qed.

(** The directory of [d/leaf] is [d]. *)
Lemma last_parents (d leaf : string) :
  no_slash leaf = true → last (parents (d +:+ String "/" leaf)) = Some d.
Proof.
  intros Hleaf. rewrite parents_app, (parents_no_slash leaf) by done.
  simpl. apply last_snoc.
Qed.

Lemma elem_of_parents (d rest : string) :
  d ∈ parents (d +:+ String "/" rest).
Proof. rewrite parents_app. set_solver. Qed.

Lemma strip_prefix_app (pre s : string) : strip_prefix pre (pre +:+ s) = Some s.
Proof.
  induction pre as [|c pre IH]; [by destruct s|].
  rewrite string_app_cons. simpl. by rewrite bool_decide_eq_true_2.
Qed.

Lemma strip_prefix_Some (pre s r : string) :
  strip_prefix pre s = Some r → s = pre +:+ r.
Proof.
  revert s. induction pre as [|c pre IH]; intros s.
  - destruct s; by intros [= <-].
  - destruct s as [|b s]; simpl; [done|].
    case_bool_decide as Hc; [|done]. subst b.
    intros ->%IH. by rewrite string_app_cons.
Qed.

Lemma strip_suffix_app (suf r : string) : strip_suffix suf (r +:+ suf) = Some r.
Proof.
  induction r as [|c r IH].
  - rewrite string_app_nil. destruct suf; simpl; [done|].
    by rewrite bool_decide_eq_true_2.
  - rewrite string_app_cons. simpl. rewrite bool_decide_eq_false_2.
    + by rewrite IH.
    + intros Heq. apply (f_equal String.length) in Heq.
      simpl in Heq. rewrite string_app_length in Heq. lia.
Qed.

Lemma strip_suffix_Some (suf s r : string) :
  strip_suffix suf s = Some r → s = r +:+ suf.
Proof.
  revert r. induction s as [|c s IH]; intros r; simpl.
  - case_bool_decide as Hs; [|done]. by intros [= <-].
  - case_bool_decide as Hs; [by intros [= <-]|].
    destruct (strip_suffix suf s) as [r'|] eqn:Hr; [|done].
    intros [= <-]. by rewrite string_app_cons, <-(IH r').
Qed.

Lemma component_file_eq (compPath specName : string) :
  component_file compPath specName
  = compPath +:+ String "/" (specName +:+ ".dat").
Proof. reflexivity. Qed.

Lemma eigenspectrum_file_eq (specPath : string) (specNum : nat) :
  eigenspectrum_file specPath specNum
  = specPath +:+ String "/" ("eigenspectra_" +:+ pretty specNum +:+ ".dat").
Proof. reflexivity. Qed.

Lemma string_app_inj_r (suf s t : string) : s +:+ suf = t +:+ suf → s = t.
Proof.
  intros Heq. apply (f_equal (strip_suffix suf)) in Heq.
  rewrite !strip_suffix_app in Heq. by injection Heq.
Qed.

Lemma component_file_inj (compPath : string) :
  Inj (=) (=) (component_file compPath).
Proof.
  intros n1 n2. rewrite !component_file_eq. intros Heq%(inj _).
  injection Heq as Heq. by apply string_app_inj_r in Heq.
Qed.

Lemma eigenspectrum_file_inj (specPath : string) :
  Inj (=) (=) (eigenspectrum_file specPath).
Proof.
  intros k1 k2. rewrite !eigenspectrum_file_eq. intros Heq%(inj _).
  injection Heq as Heq.
  change (pretty k1 +:+ ".dat" = pretty k2 +:+ ".dat") in Heq.
  apply string_app_inj_r in Heq. by apply (inj pretty).
Qed.

Lemma stem_of_component_file (compPath specName : string) :
  no_slash specName = true →
  stem_of compPath (component_file compPath specName) = Some specName.
Proof.
  intros Hn. unfold stem_of, component_file.
  rewrite <-string_app_assoc, strip_prefix_app. simpl.
  rewrite strip_suffix_app. simpl. by rewrite Hn.
Qed.

Lemma stem_of_Some (compPath path stem : string) :
  stem_of compPath path = Some stem →
  path = component_file compPath stem ∧ no_slash stem = true.
Proof.
  unfold stem_of.
  destruct (strip_prefix _ _) as [leaf|] eqn:Hleaf; [simpl|done].
  destruct (strip_suffix _ _) as [stem'|] eqn:Hstem; [simpl|done].
  destruct (no_slash stem') eqn:Hno; [|done]. intros [= <-]. split; [|done].
  apply strip_prefix_Some in Hleaf. apply strip_suffix_Some in Hstem.
  subst. unfold component_file. by rewrite string_app_assoc.
Qed.

(** ** Writing *)

Lemma io_bind_unfold {A B} (m : io A) (f : A → io B) (s : fs) :
  (m ≫= f) s
  = match m s with
    | (Ok a, s') => f a s'
    | (Raise e, s') => (Raise e, s')
    end.
Proof. reflexivity. Qed.

Lemma np_savetxt_cases (fname : string) (X : vec) (s : fs) :
  np_savetxt fname X s = (Ok (), mkFs (dirs s) (<[fname := X]> (files s))) ∨
  np_savetxt fname X s = (Raise IOError, s).
Proof. unfold np_savetxt. destruct (_ && _); auto. Qed.

Lemma np_savetxt_ok (d leaf : string) (X : vec) (s : fs) :
  no_slash leaf = true → d ∈ dirs s → (d +:+ String "/" leaf ∉ dirs s) →
  np_savetxt (d +:+ String "/" leaf) X s
  = (Ok (), mkFs (dirs s) (<[d +:+ String "/" leaf := X]> (files s))).
Proof.
  intros Hleaf Hd Hf. unfold np_savetxt. rewrite last_parents by done.
  by rewrite !bool_decide_eq_true_2.
Qed.

Lemma os_makedirs_exists (path : string) (s : fs) :
  path ∈ dirs s → os_makedirs path s = (Raise OSError, s).
Proof. intros Hp. unfold os_makedirs. rewrite bool_decide_eq_true_2; auto. Qed.

Lemma os_makedirs_cases (path : string) (s : fs) :
  os_makedirs path s = (Raise OSError, s) ∨
  (path ∉ dirs s) ∧
  os_makedirs path s
  = (Ok (), mkFs ({[path]} ∪ list_to_set (parents path) ∪ dirs s) (files s)).
Proof.
  unfold os_makedirs. case_bool_decide as Hp; [by left|right].
  split; [|done]. intros ?. apply Hp. by left.
Qed.

Lemma dirs_closed_add (ds : gset string) (d leaf : string) :
  dirs_closed ds → no_slash leaf = true → d ∈ ds →
  dirs_closed ({[d +:+ String "/" leaf]} ∪ ds).
Proof.
  intros Hds Hleaf Hd p q [->%elem_of_singleton|Hp]%elem_of_union Hq.
  - apply elem_of_union. right.
    rewrite parents_app, (parents_no_slash leaf) in Hq by done.
    apply elem_of_app in Hq as [Hq| ->%list_elem_of_singleton]; eauto.
  - apply elem_of_union. right. eauto.
Qed.

(** Making a directory directly under an existing one adds that
    directory only. *)
Lemma os_makedirs_ok (d leaf : string) (s : fs) :
  dirs_closed (dirs s) → no_slash leaf = true → d ∈ dirs s →
  (d +:+ String "/" leaf ∉ dirs s) → files s !! (d +:+ String "/" leaf) = None →
  os_makedirs (d +:+ String "/" leaf) s
  = (Ok (), mkFs ({[d +:+ String "/" leaf]} ∪ dirs s) (files s)).
Proof.
  intros Hwf Hleaf Hd Hnd Hnf. unfold os_makedirs.
  rewrite bool_decide_eq_false_2.
  - f_equal. f_equal. rewrite parents_app, (parents_no_slash leaf) by done.
    apply set_eq. intros q. rewrite !elem_of_union, elem_of_list_to_set.
    simpl. rewrite elem_of_app, list_elem_of_singleton.
    intuition (subst; eauto).
  - rewrite Hnf. intros [?|[? ?]]; done.
Qed.

Section loops.
Context {A : Type} (path : A → string) (data : A → vec) (body : A → io unit).
Hypothesis body_eq : ∀ x, body x = np_savetxt (path x) (data x).

Lemma for_savetxt_ok (l : list A) (s : fs) :
  Forall (λ x, (path x ∉ dirs s) ∧
               ∃ d, last (parents (path x)) = Some d ∧ d ∈ dirs s) l →
  for_ l body s
  = (Ok (), mkFs (dirs s) (foldl (λ m x, <[path x := data x]> m) (files s) l)).
Proof.
  intros Hl. revert s Hl. induction l as [|x l IH]; intros s Hl.
  { by destruct s. }
  apply Forall_cons in Hl as [(Hx & d & Hd & Hin) Hl].
  simpl. rewrite io_bind_unfold, body_eq. unfold np_savetxt at 1.
  rewrite Hd, !bool_decide_eq_true_2 by done. simpl.
  by rewrite IH.
Qed.

(** Whatever happens in the loop, no directory appears and only the
    files of the loop are written. *)
Lemma for_savetxt_frame (l : list A) (s : fs) :
  dirs (for_ l body s).2 = dirs s ∧
  ∀ p, Forall (λ x, path x ≠ p) l →
       files (for_ l body s).2 !! p = files s !! p.
Proof.
  revert s. induction l as [|x l IH]; intros s; [done|].
  simpl. rewrite io_bind_unfold, body_eq.
  destruct (np_savetxt_cases (path x) (data x) s) as [-> | ->]; [|done].
  destruct (IH (mkFs (dirs s) (<[path x := data x]> (files s)))) as [Hd Hf].
  split; [done|]. intros p [Hx Hl]%Forall_cons.
  rewrite Hf by done. simpl. by rewrite lookup_insert_ne.
Qed.

Lemma foldl_insert_ne (l : list A) (m : gmap string vec) (p : string) :
  Forall (λ x, path x ≠ p) l →
  foldl (λ m x, <[path x := data x]> m) m l !! p = m !! p.
Proof.
  revert m. induction l as [|x l IH]; intros m; [done|].
  intros [Hx Hl]%Forall_cons. simpl. rewrite IH by done.
  by rewrite lookup_insert_ne.
Qed.

Lemma foldl_insert_lookup (l : list A) (m : gmap string vec) (i : nat) (x : A) :
  NoDup (path <$> l) → l !! i = Some x →
  foldl (λ m x, <[path x := data x]> m) m l !! path x = Some (data x).
Proof.
  revert m i. induction l as [|y l IH]; intros m i; [done|].
  rewrite fmap_cons. intros [Hy Hl]%NoDup_cons. destruct i as [|i]; simpl.
  - intros [= ->]. rewrite foldl_insert_ne; [by rewrite lookup_insert_eq|].
    apply Forall_forall. intros z Hz Heq. apply Hy. rewrite <-Heq.
    by apply list_elem_of_fmap_2.
  - intros Hi. by eapply IH.
Qed.
End loops.

Lemma no_slash_eigenspectrum_leaf (specNum : nat) :
  no_slash ("eigenspectra_" +:+ pretty specNum +:+ ".dat") = true.
Proof. by rewrite !no_slash_app, no_slash_pretty. Qed.

Lemma no_slash_component_leaf (specName : string) :
  no_slash specName = true → no_slash (specName +:+ ".dat") = true.
Proof. intros Hn. by rewrite no_slash_app, Hn. Qed.

(** A path below a directory that does not exist is neither a directory
    nor a file of a well-formed disk. *)
Lemma fs_wf_below (s : fs) (d rest : string) :
  fs_wf s → d ∉ dirs s →
  (d +:+ String "/" rest ∉ dirs s) ∧ files s !! (d +:+ String "/" rest) = None.
Proof.
  intros [Hf Hd] Hnd. split.
  - intros Hin. apply Hnd. eapply Hd; [done|]. apply elem_of_parents.
  - apply eq_None_not_Some. intros Hsome. apply Hnd.
    eapply Hf; [done|]. apply elem_of_parents.
Qed.

(** Two paths below one directory that part ways at a literal
    character. *)
Ltac path_neq :=
  let H := fresh "Heq" in
  intros H; rewrite ?string_app_assoc in H; apply (inj (String.app _)) in H;
  rewrite ?string_app_cons, ?string_app_nil in H; discriminate H.

(** On a ready disk every step of [write_output] succeeds. *)
Lemma write_output_ready (self : pcaSED) (outFolder : string) (s : fs) :
  save_ready self outFolder s →
  write_output self outFolder s = (Ok (), saved self outFolder s).
Proof.
  intros [Hwf Hout Hspec Hnames [Hed Hef] [Hcd Hcf] Hw Hm].
  unfold write_output, saved.
  rewrite io_bind_unfold. unfold io_lift. rewrite py_index_head.
  destruct (head (spec_list self)) as [s0|] eqn:Hhead;
    [|by apply head_None in Hhead].
  simpl (default _ _).
  (* wavelengths.dat *)
  rewrite io_bind_unfold.
  rewrite (np_savetxt_ok outFolder "wavelengths.dat") by done.
  (* eigenspectra/ *)
  rewrite io_bind_unfold.
  rewrite (os_makedirs_ok outFolder "eigenspectra"); [|by destruct Hwf|done..|].
  2:{ simpl. rewrite lookup_insert_ne; [done|path_neq]. }
  rewrite io_bind_unfold.
  rewrite (for_savetxt_ok
             (λ x, eigenspectrum_file (outFolder +:+ "/eigenspectra") x.2)
             (λ x, x.1)); [|by intros []|].
  2:{ apply Forall_forall. intros [spec k] _. simpl.
      rewrite eigenspectrum_file_eq. split.
      - rewrite elem_of_union, elem_of_singleton. intros [Heq|Hin].
        + apply (f_equal String.length) in Heq.
          rewrite string_app_length in Heq. simpl in Heq. lia.
        + by apply (fs_wf_below s _ _ Hwf Hed) in Hin.
      - eexists. rewrite last_parents by apply no_slash_eigenspectrum_leaf.
        split; [done|]. set_solver. }
  (* components/ *)
  rewrite io_bind_unfold.
  rewrite (os_makedirs_ok outFolder "components"); [|..].
  2:{ simpl. apply (dirs_closed_add _ outFolder "eigenspectra"); [|done..].
      by destruct Hwf. }
  2:{ done. }
  2:{ simpl. set_solver. }
  2:{ simpl. rewrite elem_of_union, elem_of_singleton.
      intros [Heq|?]; [revert Heq; path_neq|done]. }
  2:{ simpl. rewrite foldl_insert_ne.
      - rewrite lookup_insert_ne; [done|path_neq].
      - apply Forall_forall. intros [spec k] _.
        rewrite eigenspectrum_file_eq. path_neq. }
  rewrite io_bind_unfold.
  rewrite (for_savetxt_ok
             (λ x, component_file (outFolder +:+ "/components") (name x.1))
             (λ x, x.2)); [|by intros []|].
  2:{ apply Forall_forall. intros [spec comps] Hin%elem_of_zip_l. simpl.
      rewrite component_file_eq.
      assert (no_slash (name spec) = true) as Hn.
      { by apply (proj1 (Forall_forall _ _) Hnames) in Hin. }
      split.
      - rewrite !elem_of_union, !elem_of_singleton. intros [Heq|[Heq|Hin']].
        + apply (f_equal String.length) in Heq.
          rewrite string_app_length in Heq. simpl in Heq. lia.
        + revert Heq. path_neq.
        + by apply (fs_wf_below s _ _ Hwf Hcd) in Hin'.
      - eexists. rewrite last_parents by (by apply no_slash_component_leaf).
        split; [done|]. set_solver. }
  (* meanSpectrum.dat *)
  simpl. rewrite (np_savetxt_ok outFolder "meanSpectrum.dat"); [done|done|..].
  - simpl. set_solver.
  - simpl. rewrite !elem_of_union, !elem_of_singleton.
    intros [Heq|[Heq|?]]; [revert Heq; path_neq..|done].
Qed.

(** If one of the two subdirectories exists, [write_output] raises, and
    nothing below that subdirectory has changed when it does. *)
Lemma write_output_existing (self : pcaSED) (outFolder d : string) (s : fs) :
  d = outFolder +:+ "/eigenspectra" ∨ d = outFolder +:+ "/components" →
  d ∈ dirs s →
  raises (write_output self outFolder s).1 ∧
  ∀ rest, files (write_output self outFolder s).2 !! (d +:+ String "/" rest)
          = files s !! (d +:+ String "/" rest).
Proof.
  intros Hd Hin. unfold write_output.
  rewrite io_bind_unfold. unfold io_lift.
  destruct (py_index (spec_list self) 0) as [s0|e]; [|split; [by eexists|done]].
  rewrite io_bind_unfold.
  destruct (np_savetxt_cases (outFolder +:+ "/wavelengths.dat") (wavelen s0) s)
    as [-> | ->]; [|split; [by eexists|done]].
  assert (∀ rest, outFolder +:+ "/wavelengths.dat" ≠ d +:+ String "/" rest)
    as Hwl.
  { intros rest. destruct Hd as [-> | ->]; path_neq. }
  rewrite io_bind_unfold.
  destruct (os_makedirs_cases (outFolder +:+ "/eigenspectra")
              (mkFs (dirs s) (<[outFolder +:+ "/wavelengths.dat" := wavelen s0]>
                                (files s))))
    as [-> | [Hfree ->]].
  { split; [by eexists|]. intros rest. simpl. by rewrite lookup_insert_ne. }
  simpl in Hfree. destruct Hd as [-> | ->]; [done|].
  rewrite io_bind_unfold.
  match goal with |- context [for_ ?l ?body ?s1] =>
    pose proof (for_savetxt_frame
                  (λ x, eigenspectrum_file (outFolder +:+ "/eigenspectra") x.2)
                  (λ x, x.1) body (λ x, match x with (_, _) => eq_refl end)
                  l s1) as [Hdirs Hfiles];
    destruct (for_ l body s1) as [[[]|e] s3]
  end; simpl in Hdirs, Hfiles.
  - rewrite io_bind_unfold, os_makedirs_exists.
    2:{ rewrite Hdirs. apply elem_of_union. by right. }
    split; [by eexists|]. intros rest. simpl. rewrite Hfiles.
    + by rewrite lookup_insert_ne.
    + apply Forall_forall. intros [spec k] _.
      rewrite eigenspectrum_file_eq. path_neq.
  - split; [by eexists|]. intros rest. simpl. rewrite Hfiles.
    + by rewrite lookup_insert_ne.
    + apply Forall_forall. intros [spec k] _.
      rewrite eigenspectrum_file_eq. path_neq.
Qed.

(** C9 (as stated) fails. Where an earlier basis lies, [write_output]
    raises, but not rather than overwriting saved data: the grid saved
    in [wavelengths.dat] has been replaced by then. *)
Lemma write_output_overwrites_saved_data :
  "out/eigenspectra" ∈ dirs earlier_save ∧
  files earlier_save !! "out/wavelengths.dat" = Some [z 7; z 8; z 9] ∧
  (write_output sample_fit "out" earlier_save).1 = Raise OSError ∧
  files (write_output sample_fit "out" earlier_save).2
    !! "out/wavelengths.dat" = Some [z 1; z 2; z 3].
Proof. repeat split; compute_done. Qed.

(** C9 (amended). On a ready disk [write_output] succeeds and the
    directories [eigenspectra] and [components] exist afterwards. If one
    of them is there already it raises, and the files below the
    directory that was there are as they were; but the call is not
    without effect. With [eigenspectra] there, it raises [OSError] after
    [wavelengths.dat] has been written over; with only [components]
    there, it raises [OSError] after it has written [wavelengths.dat],
    made [eigenspectra] and written every eigenspectrum into it. *)
Theorem write_output_subdirectories
    (self : pcaSED) (outFolder : string) (s : fs) :
  let specPath := outFolder +:+ "/eigenspectra" in
  let compPath := outFolder +:+ "/components" in
  let wavelengths := outFolder +:+ "/wavelengths.dat" in
  (save_ready self outFolder s →
   (write_output self outFolder s).1 = Ok () ∧
   specPath ∈ dirs (write_output self outFolder s).2 ∧
   compPath ∈ dirs (write_output self outFolder s).2) ∧
  (∀ d, d = specPath ∨ d = compPath → d ∈ dirs s →
   raises (write_output self outFolder s).1 ∧
   ∀ rest, files (write_output self outFolder s).2 !! (d +:+ String "/" rest)
           = files s !! (d +:+ String "/" rest)) ∧
  (∀ s0, head (spec_list self) = Some s0 →
         outFolder ∈ dirs s → wavelengths ∉ dirs s →
   (specPath ∈ dirs s →
    write_output self outFolder s
    = (Raise OSError,
       mkFs (dirs s) (<[wavelengths := wavelen s0]> (files s)))) ∧
   (dirs_closed (dirs s) → specPath ∉ dirs s → files s !! specPath = None →
    compPath ∈ dirs s →
    write_output self outFolder s
    = (Raise OSError,
       mkFs ({[specPath]} ∪ dirs s)
            (foldl (λ m x, <[eigenspectrum_file specPath x.2 := x.1]> m)
                   (<[wavelengths := wavelen s0]> (files s))
                   (zip (rows (eigenspectra self))
                        (seq 0 (nrows (eigenspectra self)))))))).
Proof.
  intros specPath compPath wavelengths. split; [|split].
  - intros Hready. rewrite write_output_ready by done.
    split; [done|]. unfold saved. simpl. set_solver.
  - intros d. apply write_output_existing.
  - intros s0 Hhead Hout Hwl.
    assert (write_output self outFolder s
            = (os_makedirs specPath ;;
               for_ (zip (rows (eigenspectra self))
                         (seq 0 (nrows (eigenspectra self))))
                    (λ '(spec, specNum),
                       np_savetxt (eigenspectrum_file specPath specNum) spec) ;;
               os_makedirs compPath ;;
               for_ (zip (spec_list self) (rows (projected self)))
                    (λ '(spec, comps),
                       np_savetxt (component_file compPath (name spec)) comps) ;;
               np_savetxt (outFolder +:+ "/meanSpectrum.dat") (mean_spec self))
                (mkFs (dirs s) (<[wavelengths := wavelen s0]> (files s))))
      as ->.
    { unfold write_output. rewrite io_bind_unfold. unfold io_lift.
      rewrite py_index_head, Hhead. rewrite io_bind_unfold.
      by rewrite (np_savetxt_ok outFolder "wavelengths.dat") by done. }
    split.
    + intros Hspec. by rewrite io_bind_unfold, os_makedirs_exists.
    + intros Hclosed Hfree Hnofile Hcomp.
      rewrite io_bind_unfold.
      rewrite (os_makedirs_ok outFolder "eigenspectra"); [|done..|].
      2:{ simpl. rewrite lookup_insert_ne; [done|]. subst wavelengths.
          path_neq. }
      rewrite io_bind_unfold.
      rewrite (for_savetxt_ok
                 (λ x, eigenspectrum_file specPath x.2) (λ x, x.1));
        [|by intros []|].
      2:{ apply Forall_forall. intros [spec k] _. simpl.
          subst specPath. rewrite eigenspectrum_file_eq. split.
          - rewrite elem_of_union, elem_of_singleton. intros [Heq|Hin].
            + apply (f_equal String.length) in Heq.
              rewrite string_app_length in Heq. simpl in Heq. lia.
            + apply Hfree. eapply Hclosed; [exact Hin|].
              apply elem_of_parents.
          - eexists. rewrite last_parents by apply no_slash_eigenspectrum_leaf.
            split; [done|]. apply elem_of_union. left.
            by apply elem_of_singleton. }
      rewrite io_bind_unfold, os_makedirs_exists; [done|].
      simpl. apply elem_of_union. by right.
Qed.

Lemma sample_disk_ready : save_ready sample_fit "out" sample_disk.
Proof.
  split; try compute_done.
  - split.
    + intros p d [X HX]. unfold sample_disk in HX. simpl in HX.
      by rewrite lookup_empty in HX.
    + intros p d Hp Hd. unfold sample_disk in Hp. simpl in Hp.
      apply elem_of_singleton in Hp as ->. by apply elem_of_nil in Hd.
Qed.

Lemma write_output_subdirectories_witness :
  ((write_output sample_fit "out" sample_disk).1 = Ok () ∧
   "out/eigenspectra" ∈ dirs (write_output sample_fit "out" sample_disk).2 ∧
   "out/components" ∈ dirs (write_output sample_fit "out" sample_disk).2) ∧
  (raises (write_output sample_fit "out" used_disk).1 ∧
   ∀ rest,
     files (write_output sample_fit "out" used_disk).2
       !! ("out/components" +:+ String "/" rest)
     = files used_disk !! ("out/components" +:+ String "/" rest)) ∧
  write_output sample_fit "out" earlier_save
  = (Raise OSError,
     mkFs (dirs earlier_save)
          (<["out/wavelengths.dat" := [z 1; z 2; z 3]]> (files earlier_save))) ∧
  write_output sample_fit "out" components_left
  = (Raise OSError,
     mkFs ({["out/eigenspectra"]} ∪ dirs components_left)
          (<["out/eigenspectra/eigenspectra_1.dat" := [z 0; z 1; z 0]]>
             (<["out/eigenspectra/eigenspectra_0.dat" := [z 1; z 0; z 0]]>
                (<["out/wavelengths.dat" := [z 1; z 2; z 3]]>
                   (files components_left))))).
Proof.
  pose (s0 := mkSed "sample.dat" [z 1; z 2; z 3] [z 1; z 1; z 1] None).
  split; [|split; [|split]].
  - apply (write_output_subdirectories sample_fit "out" sample_disk).
    exact sample_disk_ready.
  - apply (write_output_subdirectories sample_fit "out" used_disk).
    + by right.
    + compute_done.
  - destruct (write_output_subdirectories sample_fit "out" earlier_save)
      as (_ & _ & H).
    destruct (H s0) as [H1 _]; [done|compute_done..|].
    apply H1. compute_done.
  - destruct (write_output_subdirectories sample_fit "out" components_left)
      as (_ & _ & H).
    destruct (H s0) as [_ H2]; [done|compute_done..|].
    apply H2; try compute_done.
    intros p d Hp Hd. unfold components_left in Hp. cbn [dirs] in Hp.
    apply elem_of_union in Hp as [->%elem_of_singleton| ->%elem_of_singleton].
    + by apply elem_of_nil in Hd.
    + vm_compute in Hd. apply list_elem_of_singleton in Hd as ->.
      compute_done.
Defined.

(** ** Reading back *)

Lemma read_components_lookup (s : fs) (compPath stem : string) :
  read_components s compPath !! stem
  = if no_slash stem then files s !! component_file compPath stem else None.
Proof.
  unfold read_components. revert stem.
  apply (map_fold_weak_ind (λ r m, ∀ stem,
    r !! stem = if no_slash stem then m !! component_file compPath stem
                else None)).
  - intros stem. rewrite !lookup_empty. by destruct (no_slash stem).
  - intros path X m r Hpath IH stem.
    destruct (stem_of compPath path) as [stem'|] eqn:Hstem.
    + apply stem_of_Some in Hstem as [-> Hno].
      destruct (decide (stem' = stem)) as [->|Hne].
      * by rewrite Hno, !lookup_insert_eq.
      * rewrite !lookup_insert_ne; [apply IH| |done].
        by intros ?%component_file_inj.
    + rewrite IH. destruct (no_slash stem) eqn:Hno; [|done].
      rewrite lookup_insert_ne; [done|]. intros ->.
      by rewrite stem_of_component_file in Hstem.
Qed.

Lemma read_eigenspectra_rows (s : fs) (specPath : string) (l : list vec) :
  ∀ fuel specNum : nat,
    (∀ i X, l !! i = Some X →
            files s !! eigenspectrum_file specPath (specNum + i) = Some X) →
    files s !! eigenspectrum_file specPath (specNum + length l) = None →
    (length l ≤ fuel)%nat →
    read_eigenspectra s specPath fuel specNum = l.
Proof.
  induction l as [|X l IH]; intros fuel k Hl Hend Hfuel.
  - destruct fuel; [done|]. simpl in *. rewrite Nat.add_0_r in Hend.
    by rewrite Hend.
  - destruct fuel as [|fuel]; [simpl in Hfuel; lia|]. simpl.
    pose proof (Hl 0%nat X eq_refl) as H0. rewrite Nat.add_0_r in H0.
    rewrite H0. f_equal. apply IH.
    + intros i Y Hi. replace (S k + i)%nat with (k + S i)%nat by lia.
      by apply Hl.
    + by replace (S k + length l)%nat with (k + length (X :: l))%nat
        by (simpl; lia).
    + simpl in Hfuel. lia.
Qed.

Lemma foldl_components (compPath : string) (l : list (Sed * vec))
    (m : gmap string vec) (stem : string) :
  NoDup ((λ x, name x.1) <$> l) →
  foldl (λ m x, <[component_file compPath (name x.1) := x.2]> m) m l
    !! component_file compPath stem
  = match (list_to_map (prod_map name id <$> l) : gmap string vec) !! stem with
    | Some comps => Some comps
    | None => m !! component_file compPath stem
    end.
Proof.
  revert m. induction l as [|[spec comps] l IH]; intros m; [done|].
  rewrite fmap_cons. intros [Hspec Hl]%NoDup_cons. simpl.
  rewrite IH by done. destruct (decide (name spec = stem)) as [<-|Hne].
  - rewrite lookup_insert_eq.
    rewrite (not_elem_of_list_to_map_1 _ (name spec)).
    + by rewrite lookup_insert_eq.
    + by rewrite <-list_fmap_compose.
  - rewrite (lookup_insert_ne _ (name spec)) by done.
    destruct (list_to_map _ !! stem); [done|].
    rewrite lookup_insert_ne; [done|]. by intros ?%component_file_inj.
Qed.

Section saved.
Context (self : pcaSED) (outFolder : string) (s : fs).
Let specPath := outFolder +:+ "/eigenspectra".
Let compPath := outFolder +:+ "/components".

Lemma saved_wavelengths :
  files (saved self outFolder s) !! (outFolder +:+ "/wavelengths.dat")
  = Some (default [] (wavelen <$> head (spec_list self))).
Proof.
  unfold saved. simpl. rewrite lookup_insert_ne by path_neq.
  rewrite !foldl_insert_ne; [by rewrite lookup_insert_eq|..];
    apply Forall_forall; intros [x y] _; simpl.
  - rewrite eigenspectrum_file_eq. path_neq.
  - rewrite component_file_eq. path_neq.
Qed.

Lemma saved_meanSpectrum :
  files (saved self outFolder s) !! (outFolder +:+ "/meanSpectrum.dat")
  = Some (mean_spec self).
Proof. unfold saved. simpl. by rewrite lookup_insert_eq. Qed.

Lemma saved_eigenspectrum (i : nat) (X : vec) :
  rows (eigenspectra self) !! i = Some X →
  files (saved self outFolder s) !! eigenspectrum_file specPath i = Some X.
Proof.
  intros Hi. subst specPath. unfold saved. simpl.
  rewrite lookup_insert_ne by (rewrite eigenspectrum_file_eq; path_neq).
  rewrite foldl_insert_ne.
  2:{ apply Forall_forall. intros [x y] _. simpl.
      rewrite eigenspectrum_file_eq, component_file_eq. path_neq. }
  apply (foldl_insert_lookup
           (λ x, eigenspectrum_file (outFolder +:+ "/eigenspectra") x.2)
           (λ x, x.1) _ _ i (X, i)).
  - match goal with |- NoDup (_ <$> ?l) =>
      assert ((λ x : vec * nat,
                 eigenspectrum_file (outFolder +:+ "/eigenspectra") x.2) <$> l
              = eigenspectrum_file (outFolder +:+ "/eigenspectra") <$> l.*2)
        as -> by (by rewrite <-list_fmap_compose)
    end.
    apply NoDup_fmap_2; [apply eigenspectrum_file_inj|].
    rewrite snd_zip by (rewrite length_seq; done). apply NoDup_seq.
  - apply lookup_zip_Some. split; [done|]. apply lookup_seq.
    split; [done|]. by apply lookup_lt_Some in Hi.
Qed.

Lemma saved_eigenspectrum_end :
  fs_wf s → specPath ∉ dirs s →
  files (saved self outFolder s)
    !! eigenspectrum_file specPath (nrows (eigenspectra self)) = None.
Proof.
  intros Hwf Hfree. subst specPath. unfold saved. simpl.
  rewrite lookup_insert_ne by (rewrite eigenspectrum_file_eq; path_neq).
  rewrite foldl_insert_ne.
  2:{ apply Forall_forall. intros [x y] _. simpl.
      rewrite eigenspectrum_file_eq, component_file_eq. path_neq. }
  rewrite foldl_insert_ne.
  2:{ apply Forall_forall. intros [x k] Hk%elem_of_zip_r. simpl.
      intros ?%eigenspectrum_file_inj. apply elem_of_seq in Hk. lia. }
  rewrite lookup_insert_ne by (rewrite eigenspectrum_file_eq; path_neq).
  rewrite eigenspectrum_file_eq. by apply fs_wf_below.
Qed.

Lemma saved_component (stem : string) :
  fs_wf s → compPath ∉ dirs s →
  length (spec_list self) = nrows (projected self) →
  NoDup (name <$> spec_list self) →
  files (saved self outFolder s) !! component_file compPath stem
  = (list_to_map (zip (name <$> spec_list self) (rows (projected self)))
       : gmap string vec) !! stem.
Proof.
  intros Hwf Hfree Hlen Hnames. subst compPath. unfold saved. simpl.
  rewrite lookup_insert_ne by (rewrite component_file_eq; path_neq).
  rewrite foldl_components.
  2:{ match goal with |- NoDup (_ <$> ?l) =>
        assert ((λ x : Sed * vec, name x.1) <$> l = name <$> l.*1)
          as -> by (by rewrite <-list_fmap_compose)
      end.
      rewrite fst_zip; [done|]. unfold nrows in Hlen. lia. }
  rewrite prod_map_zip, list_fmap_id.
  destruct (list_to_map _ !! stem); [done|].
  rewrite foldl_insert_ne.
  2:{ apply Forall_forall. intros [x y] _. simpl.
      rewrite eigenspectrum_file_eq, component_file_eq. path_neq. }
  rewrite lookup_insert_ne by (rewrite component_file_eq; path_neq).
  rewrite component_file_eq. by apply fs_wf_below.
Qed.
End saved.

Lemma saved_size (self : pcaSED) (outFolder : string) (s : fs) :
  (nrows (eigenspectra self) ≤ size (files (saved self outFolder s)))%nat.
Proof.
  set (written := eigenspectrum_file (outFolder +:+ "/eigenspectra")
                  <$> seq 0 (nrows (eigenspectra self))).
  assert (length written = nrows (eigenspectra self)) as <-.
  { unfold written. by rewrite length_fmap, length_seq. }
  rewrite <-size_dom. apply submseteq_length, NoDup_submseteq.
  - apply NoDup_fmap_2; [apply eigenspectrum_file_inj|apply NoDup_seq].
  - intros p (i & -> & Hi)%list_elem_of_fmap. apply elem_of_seq in Hi.
    apply elem_of_elements, elem_of_dom.
    destruct (lookup_lt_is_Some_2 (rows (eigenspectra self)) i) as [X HX].
    { unfold nrows in Hi. lia. }
    exists X. by apply saved_eigenspectrum.
Qed.

(** C5 (as stated) fails. Two files of one name in two subdirectories
    give two spectra of one name; their coefficient files are one file,
    and what is loaded under the name is not what the first spectrum
    had. *)
Lemma load_write_output_twins :
  name <$> loadSpectra twin_reader twin_tree = name <$> spec_list twin_fit ∧
  fitted_wf twin_fit ∧
  (write_output twin_fit "out" sample_disk).1 = Ok () ∧
  ∃ bm, load "out" (write_output twin_fit "out" sample_disk).2 = Ok bm ∧
        ¬ same_basis bm twin_fit.
Proof.
  split; [compute_done|]. split.
  { split; try done; unfold array_wf; simpl; repeat constructor. }
  split; [compute_done|].
  destruct (load "out" (write_output twin_fit "out" sample_disk).2)
    as [bm|e] eqn:Hload; [|by vm_compute in Hload].
  exists bm. split; [done|]. intros (_ & _ & _ & _ & Hcoeff).
  specialize (Hcoeff 0%nat _ _ eq_refl eq_refl).
  assert (bm_coefficients bm !! "sample.dat" = Some [z 11; z 13]) as Hbm.
  { assert (bm_coefficients <$> Ok bm
            = Ok ({["sample.dat" := [z 11; z 13]]} : gmap string vec)) as Heq.
    { rewrite <-Hload. compute_done. }
    injection Heq as ->. apply lookup_singleton_eq. }
  simpl in Hcoeff. rewrite Hbm in Hcoeff. by vm_compute in Hcoeff.
Qed.

(** C5 (amended). For a fitted instance whose spectra have pairwise
    different names, saved on a ready disk, [write_output] succeeds and
    loading what it wrote gives back the grid, the mean spectrum, the
    eigenspectra and the coefficients of every spectrum. *)
Theorem load_write_output (self : pcaSED) (outFolder : string) (s : fs) :
  fitted_wf self → save_ready self outFolder s →
  NoDup (name <$> spec_list self) →
  (write_output self outFolder s).1 = Ok () ∧
  load outFolder (write_output self outFolder s).2 = Ok (basis_of self) ∧
  same_basis (basis_of self) self.
Proof.
  intros Hfit Hready Hnames. rewrite write_output_ready by done.
  cbn [fst snd]. destruct Hfit as [_ _ _ _ Hlen].
  assert (length (name <$> spec_list self) ≤ length (rows (projected self)))%nat
    as Hlen'.
  { rewrite length_fmap. unfold nrows in Hlen. lia. }
  destruct Hready as [Hwf _ _ Hslash [Hed _] [Hcd _] _ _].
  split; [done|]. split.
  - unfold load, np_loadtxt. rewrite saved_wavelengths, saved_meanSpectrum.
    simpl. unfold basis_of. do 2 f_equal.
    + apply read_eigenspectra_rows.
      * intros i X. apply saved_eigenspectrum.
      * by apply saved_eigenspectrum_end.
      * apply saved_size.
    + apply map_eq. intros stem. rewrite read_components_lookup.
      destruct (no_slash stem) eqn:Hstem; [by apply saved_component|].
      symmetry. apply not_elem_of_list_to_map_1. rewrite fst_zip by done.
      intros (spec & -> & Hin)%list_elem_of_fmap.
      apply (proj1 (Forall_forall _ _) Hslash) in Hin. congruence.
  - unfold same_basis, basis_of. simpl. do 3 (split; [done|]). split.
    + by rewrite dom_list_to_map_L, fst_zip.
    + intros i spec comps Hspec Hcomps.
      apply elem_of_list_to_map_1; [by rewrite fst_zip|].
      apply list_elem_of_lookup. exists i. apply lookup_zip_Some.
      split; [|done]. by rewrite list_lookup_fmap, Hspec.
Qed.

Lemma load_write_output_witness :
  (write_output sample_fit "out" sample_disk).1 = Ok () ∧
  load "out" (write_output sample_fit "out" sample_disk).2
  = Ok (basis_of sample_fit) ∧
  same_basis (basis_of sample_fit) sample_fit.
Proof.
  apply (load_write_output sample_fit "out" sample_disk).
  - exact sample_fit_wf.
  - exact sample_disk_ready.
  - compute_done.
Defined.

(** ** Inner products *)

Lemma vdot_vscale_l (a : Qc) (v w : vec) : vdot (vscale a v) w = a * vdot v w.
Proof.
  unfold vdot, vscale. revert w. induction v as [|x v IH]; intros [|y w].
  1-3: change (0 = a * 0); ring.
  rewrite fmap_cons. simpl. rewrite !np_sum_cons, IH. ring.
Qed.

Lemma vdot_vadd_l (u v w : vec) :
  length u = length v → vdot (vadd u v) w = vdot u w + vdot v w.
Proof.
  unfold vdot, vadd. revert v w.
  induction u as [|x u IH]; intros [|y v] [|t w] Hlen; try done.
  all: try (change (0 = 0 + 0); ring).
  simpl. rewrite !np_sum_cons, IH by (simpl in Hlen; lia). ring.
Qed.

Lemma vdot_replicate_0_l (n : nat) (w : vec) : vdot (replicate n 0) w = 0.
Proof.
  unfold vdot. revert w. induction n as [|n IH]; intros [|y w]; try done.
  simpl. rewrite np_sum_cons, IH. ring.
Qed.

Lemma length_vadd (u v : vec) (n : nat) :
  length u = n → length v = n → length (vadd u v) = n.
Proof. intros Hu Hv. unfold vadd. rewrite length_zip_with. lia. Qed.

Lemma length_vecmat (n : nat) (c : vec) (V : list vec) :
  Forall (λ v, length v = n) V → length (vecmat n c V) = n.
Proof.
  intros HV. revert c. unfold vecmat.
  induction HV as [|v V Hv _ IH]; intros [|a c]; simpl;
    try apply length_replicate.
  apply length_vadd; [|apply IH]. unfold vscale. by rewrite length_fmap.
Qed.

Lemma vecmat_cons (n : nat) (a : Qc) (c v : vec) (V : list vec) :
  vecmat n (a :: c) (v :: V) = vadd (vscale a v) (vecmat n c V).
Proof. reflexivity. Qed.

(** ** The four sample spectra *)

Lemma Qc_square_nonneg (x : Qc) : 0 ≤ x * x.
Proof.
  destruct (Qclt_le_dec x 0) as [Hx|Hx].
  - replace (x * x) with ((- x) * (- x)) by ring.
    assert (0 ≤ - x) as Hn.
    { apply Qclt_le_weak in Hx. apply Qcopp_le_compat in Hx.
      by replace (- 0) with 0 in Hx by ring. }
    by apply Qcmult_nonneg_nonneg.
  - by apply Qcmult_nonneg_nonneg.
Qed.

Lemma four_centred_eq : (λ x, vsub x four_mean) <$> four_scaled = four_centred.
Proof. compute_done. Qed.

(** The variance of the four spectra along [w], by the two combinations
    of the entries of [w] the data see. *)
Lemma four_variance (w1 w2 w3 w4 : Qc) :
  let e := half * half * half in
  let P := w1 + w2 - w3 - w4 in
  let Q := w1 - w2 + w3 - w4 in
  variance_along four_scaled four_mean [w1; w2; w3; w4]
  = (1 + 1) * (e * e) * (P * P) + (1 + 1) * (e * e) * (half * half) * (Q * Q).
Proof.
  intros e P Q. unfold variance_along.
  rewrite (list_fmap_compose (λ x, vsub x four_mean)
             (λ d, vdot d [w1; w2; w3; w4] * vdot d [w1; w2; w3; w4])).
  rewrite four_centred_eq. unfold four_centred, vdot. simpl.
  unfold np_sum. simpl. subst e P Q. ring.
Qed.

Lemma four_unit (w1 w2 w3 w4 : Qc) :
  vdot [w1; w2; w3; w4] [w1; w2; w3; w4]
  = w1 * w1 + w2 * w2 + w3 * w3 + w4 * w4.
Proof. unfold vdot, np_sum. simpl. ring. Qed.

(** No direction carries more variance than [axis_1]. *)
Lemma four_first_axis (w : vec) :
  length w = 4%nat → vdot w w = 1 →
  variance_along four_scaled four_mean w
  ≤ variance_along four_scaled four_mean axis_1.
Proof.
  destruct w as [|w1 [|w2 [|w3 [|w4 [|]]]]]; intros Hlen;
    try discriminate Hlen. intros Hunit.
  rewrite four_unit in Hunit.
  set (e := half * half * half).
  assert (variance_along four_scaled four_mean axis_1
          = (1 + 1) * (1 + 1) * (1 + 1) * (e * e)) as -> by compute_done.
  replace ((1 + 1) * (1 + 1) * (1 + 1) * (e * e))
    with ((1 + 1) * (1 + 1) * (1 + 1) * (e * e)
          * (w1 * w1 + w2 * w2 + w3 * w3 + w4 * w4))
    by (rewrite Hunit; ring).
  rewrite four_variance. fold e. apply Qcle_minus_iff.
  set (Q := w1 - w2 + w3 - w4). set (R := w1 - w2 - w3 + w4).
  set (T := w1 + w2 + w3 + w4).
  replace (_ + - _)
    with ((1 + 1) * (e * e) * ((1 - half * half) * (Q * Q) + R * R + T * T))
    by (subst Q R T; ring).
  assert (0 ≤ 1 + 1) as H2 by compute_done.
  assert (0 ≤ 1 - half * half) as Hk by compute_done.
  revert H2 Hk. generalize (1 + 1) (1 - half * half). intros two k H2 Hk.
  clearbody e Q R T.
  repeat (assumption || apply Qc_square_nonneg
          || apply Qcmult_nonneg_nonneg || apply Qcplus_nonneg_nonneg).
Qed.

(** Among the directions orthogonal to [axis_1] none carries more
    variance than [axis_2]. *)
Lemma four_second_axis (w : vec) :
  length w = 4%nat → vdot w w = 1 → vdot axis_1 w = 0 →
  variance_along four_scaled four_mean w
  ≤ variance_along four_scaled four_mean axis_2.
Proof.
  destruct w as [|w1 [|w2 [|w3 [|w4 [|]]]]]; intros Hlen;
    try discriminate Hlen. intros Hunit Hort.
  rewrite four_unit in Hunit.
  set (e := half * half * half).
  assert (w1 + w2 - w3 - w4 = 0) as HP.
  { assert ((1 + 1) * half = 1) as Hh by compute_done.
    replace (w1 + w2 - w3 - w4)
      with ((1 + 1) * half * (w1 + w2 - w3 - w4)) by (rewrite Hh; ring).
    replace ((1 + 1) * half * (w1 + w2 - w3 - w4))
      with ((1 + 1) * vdot axis_1 [w1; w2; w3; w4])
      by (unfold axis_1, vdot, np_sum; simpl; ring).
    rewrite Hort. ring. }
  assert (variance_along four_scaled four_mean axis_2
          = (1 + 1) * (1 + 1) * (1 + 1) * (e * e) * (half * half))
    as -> by compute_done.
  replace ((1 + 1) * (1 + 1) * (1 + 1) * (e * e) * (half * half))
    with ((1 + 1) * (1 + 1) * (1 + 1) * (e * e) * (half * half)
          * (w1 * w1 + w2 * w2 + w3 * w3 + w4 * w4))
    by (rewrite Hunit; ring).
  rewrite four_variance. fold e. rewrite HP. apply Qcle_minus_iff.
  set (P := w1 + w2 - w3 - w4).
  set (R := w1 - w2 - w3 + w4). set (T := w1 + w2 + w3 + w4).
  replace (_ + - _)
    with ((1 + 1) * (e * e) * (half * half) * (P * P + R * R + T * T))
    by (subst P R T; ring).
  assert (0 ≤ 1 + 1) as H2 by compute_done.
  revert H2. generalize (1 + 1). intros two H2. clearbody e P R T.
  repeat (assumption || apply Qc_square_nonneg
          || apply Qcmult_nonneg_nonneg || apply Qcplus_nonneg_nonneg).
Qed.

(** [four_pca] keeps the contract of a PCA wherever it answers. *)
Lemma four_pca_ok (comps : Z) (X : list vec) (p : PCA) :
  four_pca comps X = Ok p → pca_fit_ok comps X p.
Proof.
  unfold four_pca. case_bool_decide as HX; [subst X|done].
  case_bool_decide as H1; [subst comps|case_bool_decide as H2; [subst|done]];
    intros [= <-]; split;
    cbn [rows components_ mean_ ncols nrows principal_axes orthonormal app].
  - compute_done.
  - compute_done.
  - done.
  - unfold array_wf. compute_done.
  - split; [compute_done|]. split; [apply Forall_nil_2|done].
  - split; [|done]. intros w Hlen Hunit _. by apply four_first_axis.
  - compute_done.
  - compute_done.
  - done.
  - unfold array_wf. compute_done.
  - split; [compute_done|]. split; [compute_done|].
    split; [compute_done|]. split; [apply Forall_nil_2|done].
  - split; [|split; [|done]].
    + intros w Hlen Hunit _. by apply four_first_axis.
    + intros w Hlen Hunit [Hort _]%Forall_cons. by apply four_second_axis.
Qed.

(** ** Reconstruction with every component *)

Lemma length_np_mean_rows (n : nat) (X : list vec) :
  Forall (λ x, length x = n) X → length (np_mean_rows n X) = n.
Proof.
  intros HX. unfold np_mean_rows, vscale. rewrite length_fmap.
  induction HX as [|x X Hx _ IH]; simpl; [apply length_replicate|].
  by apply length_vadd.
Qed.

(** C4 (as stated) fails. The four sample spectra are not on one line
    through their mean; fitted with one component and reconstructed with
    that one component, the third and the fourth come out as the mean
    spectrum, not as their normalised flux. *)
Lemma reconstruct_spectra_one_component_loses :
  (∀ comps X p, four_pca comps X = Ok p → pca_fit_ok comps X p) ∧
  ∃ self,
    specPCA sample_mags resample_same_grid four_pca four_spectra 1 (z 1) (z 4)
    = Ok self ∧
    nrows (eigenspectra self) = 1%nat ∧
    (rows <$> reconstruct_spectra self 1) ≠
    Ok (scaled_fluxes self) ∧
    (rows <$> reconstruct_spectra self 1) =
    Ok [[z 3 / z 8; z 3 / z 8; z 1 / z 8; z 1 / z 8];
        [z 1 / z 8; z 1 / z 8; z 3 / z 8; z 3 / z 8];
        four_mean; four_mean].
Proof.
  split; [exact four_pca_ok|].
  destruct (specPCA sample_mags resample_same_grid four_pca four_spectra 1
              (z 1) (z 4)) as [self|e] eqn:Hfit; [|by vm_compute in Hfit].
  exists self. split; [done|].
  assert ((self' ← specPCA sample_mags resample_same_grid four_pca
                       four_spectra 1 (z 1) (z 4);
             Ok (bool_decide (nrows (eigenspectra self') = 1%nat) &&
                 bool_decide ((rows <$> reconstruct_spectra self' 1)
                              ≠ Ok (scaled_fluxes self')) &&
                 bool_decide ((rows <$> reconstruct_spectra self' 1)
                   = Ok [[z 3 / z 8; z 3 / z 8; z 1 / z 8; z 1 / z 8];
                         [z 1 / z 8; z 1 / z 8; z 3 / z 8; z 3 / z 8];
                         four_mean; four_mean])))
           = Ok true) as Hcheck by (vm_compute; reflexivity).
  rewrite Hfit in Hcheck.
  injection Hcheck as Hcheck.
  apply andb_true_iff in Hcheck as [[H1 H2]%andb_true_iff H3].
  apply bool_decide_eq_true_1 in H1, H2, H3.
  split; [exact H1|]. split; [exact H2|exact H3].
Qed.

(** * Further properties of the code *)

(** ** Loading spectra *)

Lemma load_one_kept (readSED_flambda : string → read_outcome)
    (root fname : string) :
  name <$> load_one readSED_flambda root fname
  = (if kept readSED_flambda (root, fname) then [fname] else []) ∧
  Forall (λ spec, flambda spec ≠ [] ∧ scale_flux spec = None)
         (load_one readSED_flambda root fname).
Proof.
  unfold load_one, kept. simpl.
  destruct (readSED_flambda _) as [|w|w [|f0 f]]; split; try done.
  by repeat constructor.
Qed.

Lemma load_directory_kept (readSED_flambda : string → read_outcome)
    (root : string) (fs : list string) :
  name <$> (fs ≫= λ fname, load_one readSED_flambda root fname)
  = (filter (λ file, kept readSED_flambda file = true)
            ((λ fname, (root, fname)) <$> fs)).*2 ∧
  Forall (λ spec, flambda spec ≠ [] ∧ scale_flux spec = None)
         (fs ≫= λ fname, load_one readSED_flambda root fname).
Proof.
  induction fs as [|fname fs [IHn IHf]]; [done|].
  destruct (load_one_kept readSED_flambda root fname) as [Hn Hone].
  rewrite bind_cons, fmap_app, Hn, IHn, fmap_cons, filter_cons, Forall_app.
  split; [|done].
  destruct (kept readSED_flambda (root, fname)); by case_decide.
Qed.

(** X1. [loadSpectra] returns, in the order of the walk, one spectrum
    for every file that is read as a table with a first flux value that
    is a number, and none for the others; each spectrum is named by the
    bare file name, has a flux, and no [scale_flux] yet. *)
Theorem loadSpectra_keeps_readable
    (readSED_flambda : string → read_outcome) (tree : walk) :
  name <$> loadSpectra readSED_flambda tree
  = snd <$> filter (λ file, kept readSED_flambda file = true) (walk_files tree) ∧
  Forall (λ spec, flambda spec ≠ [] ∧ scale_flux spec = None)
         (loadSpectra readSED_flambda tree).
Proof.
  unfold loadSpectra, walk_files.
  induction tree as [|[[root ds] fs] tree [IHn IHf]]; [done|].
  rewrite !bind_cons. cbn beta iota.
  rewrite fmap_app, filter_app, fmap_app, IHn, Forall_app.
  by destruct (load_directory_kept readSED_flambda root fs) as [-> Hf].
Qed.

(** ** Normalising *)

Lemma np_sum_nonneg (v : vec) : Forall (Qcle 0) v → 0 ≤ np_sum v.
Proof.
  induction 1 as [|x v Hx _ IH]; [done|].
  rewrite np_sum_cons. by apply Qcplus_nonneg_nonneg.
Qed.

Lemma np_sum_bounds (v : vec) :
  Forall (Qcle 0) v → Forall (λ x, x ≤ np_sum v) v.
Proof.
  induction 1 as [|x v Hx Hv IH]; constructor.
  - rewrite np_sum_cons, <-(Qcplus_0_r x) at 1.
    apply Qcplus_le_compat; [done|]. by apply np_sum_nonneg.
  - eapply Forall_impl; [exact IH|]. intros y Hy. simpl in Hy.
    rewrite np_sum_cons, <-(Qcplus_0_l y).
    by apply Qcplus_le_compat.
Qed.

(** X2. A flux without negative values and with a positive sum is
    normalised to values between 0 and 1, as many as there were. *)
Theorem scaleSpectrum_unit_interval (sedFlux : vec) :
  Forall (Qcle 0) sedFlux → 0 < np_sum sedFlux →
  length (scaleSpectrum sedFlux) = length sedFlux ∧
  Forall (λ x, 0 ≤ x ∧ x ≤ 1) (scaleSpectrum sedFlux).
Proof.
  intros Hpos Hsum. unfold scaleSpectrum. split; [by rewrite length_fmap|].
  apply Forall_fmap.
  pose proof (np_sum_bounds sedFlux Hpos) as Hle.
  assert (np_sum sedFlux ≠ 0) as Hne.
  { intros Heq. rewrite Heq in Hsum. by apply Qclt_not_eq in Hsum. }
  apply Forall_forall. intros x Hx. simpl.
  apply (proj1 (Forall_forall _ _) Hpos) in Hx as H0.
  apply (proj1 (Forall_forall _ _) Hle) in Hx as H1. simpl in H1.
  split; apply (Qcmult_le_mono_pos_r _ _ (np_sum sedFlux) Hsum).
  - replace (x / np_sum sedFlux * np_sum sedFlux) with x by (by field).
    by rewrite Qcmult_0_l.
  - replace (x / np_sum sedFlux * np_sum sedFlux) with x by (by field).
    by rewrite Qcmult_1_l.
Qed.

Lemma scaleSpectrum_unit_interval_witness :
  let flux := [z 3; z 0; z 5] in
  length (scaleSpectrum flux) = length flux ∧
  Forall (λ x, 0 ≤ x ∧ x ≤ 1) (scaleSpectrum flux).
Proof. apply scaleSpectrum_unit_interval; compute_done. Defined.

(** ** The window and the fit *)

Lemma np_where_from_nil {A} (i : Z) (p : A → bool) (l : list A) :
  np_where_from i p l = [] ↔ Forall (λ x, p x = false) l.
Proof.
  revert i. induction l as [|x l IH]; intros i; simpl.
  - split; [constructor|done].
  - destruct (p x) eqn:Hp.
    + split; [done|]. intros [Hx _]%Forall_cons. congruence.
    + rewrite IH, Forall_cons. split; [by intros ?|by intros [_ ?]].
Qed.

Lemma py_index_head_raises {A} (l : list A) :
  py_index l 0 = Raise IndexError ↔ l = [].
Proof. rewrite py_index_head. by destruct l. Qed.

Lemma py_index_last_raises {A} (l : list A) :
  py_index l (-1) = Raise IndexError ↔ l = [].
Proof.
  rewrite py_index_last. destruct l as [|x l] using rev_ind; [done|].
  rewrite last_snoc. split; [done|]. by intros ?%app_nil_r_inv.
Qed.

Lemma wavelen_window_raises (wl : vec) (minWavelen maxWavelen : Qc) :
  Forall (λ w, w < minWavelen) wl ∨ Forall (λ w, maxWavelen < w) wl →
  wavelen_window wl minWavelen maxWavelen = Raise IndexError.
Proof.
  intros Hmiss. unfold wavelen_window, np_where.
  destruct Hmiss as [Hlo|Hhi].
  - assert (np_where_from 0 (λ w, bool_decide (minWavelen ≤ w)) wl = []) as ->;
      [|done].
    apply np_where_from_nil. eapply Forall_impl; [exact Hlo|].
    intros w Hw. simpl in Hw. apply bool_decide_eq_false_2.
    by apply Qclt_not_le.
  - assert (np_where_from 0 (λ w, bool_decide (w ≤ maxWavelen)) wl = []) as ->.
    { apply np_where_from_nil. eapply Forall_impl; [exact Hhi|].
      intros w Hw. simpl in Hw. apply bool_decide_eq_false_2.
      by apply Qclt_not_le. }
    rewrite py_index_head. by destruct (head _).
Qed.

Lemma wavelen_window_returns (wl : vec) (minWavelen maxWavelen : Qc) :
  Exists (Qcle minWavelen) wl → Exists (λ w, w ≤ maxWavelen) wl →
  ∃ wavelen_set, wavelen_window wl minWavelen maxWavelen = Ok wavelen_set ∧
                 wavelen_set `sublist_of` wl.
Proof.
  intros Hlo Hhi. unfold wavelen_window, np_where.
  destruct (py_index (np_where_from 0 (λ w, bool_decide (minWavelen ≤ w)) wl) 0)
    as [a|e] eqn:Ha.
  2:{ rewrite py_index_head in Ha.
      destruct (head _) eqn:Hhead; [done|]. apply head_None in Hhead.
      apply np_where_from_nil in Hhead. apply Exists_exists in Hlo as (w&Hw&Hle).
      apply (proj1 (Forall_forall _ _) Hhead) in Hw.
      by rewrite bool_decide_eq_true_2 in Hw. }
  destruct (py_index (np_where_from 0 (λ w, bool_decide (w ≤ maxWavelen)) wl)
              (-1)) as [b|e] eqn:Hb.
  2:{ rewrite py_index_last in Hb.
      destruct (last _) eqn:Hlast; [done|]. apply last_None in Hlast.
      apply np_where_from_nil in Hlast. apply Exists_exists in Hhi as (w&Hw&Hle).
      apply (proj1 (Forall_forall _ _) Hlast) in Hw.
      by rewrite bool_decide_eq_true_2 in Hw. }
  simpl. eexists. split; [done|]. unfold py_slice.
  etrans; [apply sublist_take|apply sublist_drop].
Qed.

(** X3. The window raises [IndexError] exactly when the grid lies wholly
    below [minWavelen] or wholly above [maxWavelen] (an empty grid does
    both); otherwise it returns a part of the grid, in grid order. No
    ordering of the grid is assumed. *)
Theorem wavelen_window_misses (wl : vec) (minWavelen maxWavelen : Qc) :
  (wavelen_window wl minWavelen maxWavelen = Raise IndexError ↔
   Forall (λ w, w < minWavelen) wl ∨ Forall (λ w, maxWavelen < w) wl) ∧
  (∀ e, wavelen_window wl minWavelen maxWavelen = Raise e → e = IndexError) ∧
  (∀ wavelen_set, wavelen_window wl minWavelen maxWavelen = Ok wavelen_set →
                  wavelen_set `sublist_of` wl).
Proof.
  destruct (decide (Exists (Qcle minWavelen) wl)) as [Hlo|Hlo];
    [destruct (decide (Exists (λ w, w ≤ maxWavelen) wl)) as [Hhi|Hhi]|].
  - destruct (wavelen_window_returns wl minWavelen maxWavelen Hlo Hhi)
      as (g & -> & Hsub).
    split; [|split; [done|by intros ? [= <-]]]. split; [done|].
    intros [Hmiss|Hmiss]; exfalso.
    + apply Exists_exists in Hlo as (w & Hw & Hle).
      apply (proj1 (Forall_forall _ _) Hmiss) in Hw. by apply Qclt_not_le in Hw.
    + apply Exists_exists in Hhi as (w & Hw & Hle).
      apply (proj1 (Forall_forall _ _) Hmiss) in Hw. by apply Qclt_not_le in Hw.
  - assert (Forall (λ w, maxWavelen < w) wl) as Hmiss.
    { apply not_Exists_Forall in Hhi; [|apply _].
      eapply Forall_impl; [exact Hhi|]. intros w Hw. by apply Qcnot_le_lt. }
    rewrite wavelen_window_raises by auto.
    split; [split; auto|]. split; [by intros ? [= <-]|done].
  - assert (Forall (λ w, w < minWavelen) wl) as Hmiss.
    { apply not_Exists_Forall in Hlo; [|apply _].
      eapply Forall_impl; [exact Hlo|]. intros w Hw. by apply Qcnot_le_lt. }
    rewrite wavelen_window_raises by auto.
    split; [split; auto|]. split; [by intros ? [= <-]|done].
Qed.

Section fit.
Variable magListForSed : vec → vec → vec.
Variable resampleSED : vec → vec → vec → vec.
Variable sklPCA_fit : Z → list vec → result PCA.

(** X4. If the grid of the first spectrum lies wholly below
    [minWavelen] or wholly above [maxWavelen], [specPCA] raises
    [IndexError], whatever the other spectra and the collaborators are. *)
Theorem specPCA_window_misses (first : Sed) (rest : list Sed) (comps : Z)
    (minWavelen maxWavelen : Qc) :
  Forall (λ w, w < minWavelen) (wavelen first) ∨
  Forall (λ w, maxWavelen < w) (wavelen first) →
  specPCA magListForSed resampleSED sklPCA_fit (first :: rest) comps
          minWavelen maxWavelen = Raise IndexError.
Proof.
  intros Hmiss. rewrite specPCA_cases.
  by rewrite wavelen_window_raises.
Qed.

(** X5. When the window reaches the grid of the first spectrum and the
    PCA returns, [specPCA] returns (its own loops never raise). The fit
    holds the spectra in their order and under their names, all on the
    window of the first grid, the attributes of the PCA, one row of
    coefficients and one row of magnitudes for each spectrum. *)
Theorem specPCA_returns (first : Sed) (rest : list Sed) (comps : Z)
    (minWavelen maxWavelen : Qc) (wavelen_set : vec) (spectra_pca : PCA) :
  wavelen_window (wavelen first) minWavelen maxWavelen = Ok wavelen_set →
  sklPCA_fit comps
    ((λ spec, scaleSpectrum
                (resampleSED (wavelen spec) (flambda spec) wavelen_set))
     <$> first :: rest) = Ok spectra_pca →
  ∃ self,
    specPCA magListForSed resampleSED sklPCA_fit (first :: rest) comps
            minWavelen maxWavelen = Ok self ∧
    name <$> spec_list self = name <$> first :: rest ∧
    Forall (λ spec, wavelen spec = wavelen_set) (spec_list self) ∧
    mean_spec self = mean_ spectra_pca ∧
    eigenspectra self = components_ spectra_pca ∧
    explained_var self = explained_variance_ratio_ spectra_pca ∧
    nrows (projected self) = S (length rest) ∧
    ncols (projected self) = nrows (eigenspectra self) ∧
    rows (mags self)
    = (λ spec, magListForSed (wavelen spec) (flambda spec)) <$> first :: rest.
Proof.
  intros Hw Hpca. eexists. rewrite specPCA_cases, Hw. cbn [mbind result_bind].
  rewrite Hpca. cbn [mbind result_bind]. split; [done|].
  unfold fit_of. cbn [spec_list mean_spec eigenspectra explained_var projected
                      mags rows ncols np_array2 pca_transform].
  split; [by rewrite <-list_fmap_compose|].
  split; [by apply Forall_fmap, Forall_true|].
  do 3 (split; [done|]).
  split; [|done]. unfold nrows, pca_transform. cbn [rows].
  by rewrite !length_fmap.
Qed.
(** What a successful [specPCA] was given and what it leaves. *)
Lemma specPCA_inv (spec_list_orig : list Sed) (comps : Z)
    (minWavelen maxWavelen : Qc) (self : pcaSED) :
  specPCA magListForSed resampleSED sklPCA_fit spec_list_orig comps
          minWavelen maxWavelen = Ok self →
  ∃ first rest wavelen_set spectra_pca,
    spec_list_orig = first :: rest ∧
    wavelen_window (wavelen first) minWavelen maxWavelen = Ok wavelen_set ∧
    sklPCA_fit comps
      ((λ spec, scaleSpectrum
                  (resampleSED (wavelen spec) (flambda spec) wavelen_set))
       <$> spec_list_orig) = Ok spectra_pca ∧
    self = fit_of magListForSed resampleSED wavelen_set spectra_pca
                  spec_list_orig.
Proof.
  rewrite specPCA_cases. destruct spec_list_orig as [|first rest]; [done|].
  destruct (wavelen_window _ _ _) as [wavelen_set|e] eqn:Hw; [|done].
  cbn [mbind result_bind].
  destruct (sklPCA_fit _ _) as [spectra_pca|e] eqn:Hpca; [|done].
  cbn [mbind result_bind]. intros [= <-].
  by exists first, rest, wavelen_set, spectra_pca.
Qed.
End fit.

Lemma specPCA_window_misses_witness :
  specPCA sample_mags resample_same_grid four_pca four_spectra 2 (z 10) (z 20)
  = Raise IndexError.
Proof.
  apply (specPCA_window_misses sample_mags resample_same_grid four_pca
           (mkSed "s1.dat" [z 1; z 2; z 3; z 4] [z 3; z 3; z 1; z 1] None)).
  left. compute_done.
Defined.

Lemma specPCA_returns_witness :
  ∃ self,
    specPCA sample_mags resample_same_grid four_pca four_spectra 2 (z 1) (z 9)
    = Ok self ∧
    name <$> spec_list self = ["s1.dat"; "s2.dat"; "s3.dat"; "s4.dat"] ∧
    Forall (λ spec, wavelen spec = [z 1; z 2; z 3; z 4]) (spec_list self) ∧
    mean_spec self = four_mean ∧
    eigenspectra self = Array2 4 [axis_1; axis_2] ∧
    explained_var self = [z 4 / z 5; z 1 / z 5] ∧
    nrows (projected self) = 4%nat ∧
    ncols (projected self) = nrows (eigenspectra self) ∧
    rows (mags self)
    = (λ spec, sample_mags (wavelen spec) (flambda spec)) <$> four_spectra.
Proof.
  refine (specPCA_returns sample_mags resample_same_grid four_pca
            (mkSed "s1.dat" [z 1; z 2; z 3; z 4] [z 3; z 3; z 1; z 1] None)
            (tail four_spectra) 2 (z 1) (z 9) [z 1; z 2; z 3; z 4]
            (mkPCA four_mean (Array2 4 [axis_1; axis_2])
                   [z 4 / z 5; z 1 / z 5]) _ _);
    compute_done.
Defined.

(** ** Colours, normalised fluxes and the mean spectrum of a fit *)

Lemma list_as_seq {A} (l : list A) (f : nat → A) (n : nat) :
  length l = n → (∀ i, (i < n)%nat → l !! i = Some (f i)) → l = f <$> seq 0 n.
Proof.
  intros Hlen Hl. apply list_eq. intros i. rewrite list_lookup_fmap.
  destruct (decide (i < n)%nat) as [Hi|Hi].
  - by rewrite Hl, (proj2 (lookup_seq 0 n i i)) by lia.
  - rewrite lookup_ge_None_2 by lia.
    by rewrite (lookup_ge_None_2 (seq 0 n)) by (rewrite length_seq; lia).
Qed.

Lemma adjacent_colors_seq (r : vec) :
  adjacent_colors r
  = (λ k, default 0 (r !! k) - default 0 (r !! S k)) <$> seq 0 (length r - 1).
Proof.
  unfold adjacent_colors. apply list_as_seq.
  - rewrite length_zip_with, length_drop. lia.
  - intros i Hi. rewrite lookup_zip_with, lookup_drop.
    destruct (lookup_lt_is_Some_2 r i) as [a ->]; [lia|].
    destruct (lookup_lt_is_Some_2 r (1 + i)) as [b Hb]; [lia|].
    rewrite Hb. simpl in Hb. by rewrite Hb.
Qed.

Lemma length_mag_column (full_mags : list vec) (k : nat) :
  length (mag_column full_mags k) = length full_mags.
Proof. unfold mag_column. by rewrite length_fmap. Qed.

(** The table of colours [specPCA] builds column by column, read row by
    row. *)
Lemma color_table (full_mags : list vec) (F : nat) :
  Forall (λ r, length r = F) full_mags → (2 ≤ F)%nat →
  rows (np_transpose
          (np_array2 ((λ k, vsub (mag_column full_mags k)
                                 (mag_column full_mags (S k)))
                      <$> seq 0 (F - 1))))
  = adjacent_colors <$> full_mags.
Proof.
  intros Hmags HF. unfold np_transpose, np_array2. cbn [rows ncols].
  set (col := λ k, vsub (mag_column full_mags k) (mag_column full_mags (S k))).
  assert (length (default [] (head (col <$> seq 0 (F - 1))))
          = length full_mags) as ->.
  { destruct F as [|[|F]]; [lia|lia|]. simpl.
    unfold col, vsub. rewrite length_zip_with, !length_mag_column. lia. }
  symmetry. apply list_as_seq; [by rewrite length_fmap|].
  intros j Hj. rewrite list_lookup_fmap.
  destruct (lookup_lt_is_Some_2 full_mags j) as [r Hr]; [done|].
  rewrite Hr. simpl. f_equal.
  rewrite adjacent_colors_seq, (Forall_lookup_1 _ _ _ _ Hmags Hr).
  rewrite <-list_fmap_compose. apply list_fmap_ext. intros _ k _. simpl.
  unfold col, vsub, mag_column.
  by rewrite lookup_zip_with, !list_lookup_fmap, Hr.
Qed.

Lemma np_sum_scaleSpectrum (flux : vec) :
  np_sum flux ≠ 0 → np_sum (scaleSpectrum flux) = 1.
Proof.
  intros Hsum. unfold scaleSpectrum. cbv zeta. rewrite np_sum_div.
  by field.
Qed.

Lemma np_sum_vadd (u v : vec) :
  length u = length v → np_sum (vadd u v) = np_sum u + np_sum v.
Proof.
  unfold vadd. revert v. induction u as [|a u IH]; intros [|b v] Hlen;
    try discriminate Hlen.
  - change (0 = 0 + 0). ring.
  - cbn [zip_with]. rewrite !np_sum_cons, IH by (simpl in Hlen; lia). ring.
Qed.

Lemma np_sum_zeros (n : nat) : np_sum (replicate n 0) = 0.
Proof.
  induction n as [|n IH]; [done|].
  cbn [replicate]. rewrite np_sum_cons, IH. ring.
Qed.

Lemma z_succ (k : nat) : z (Z.of_nat (S k)) = 1 + z (Z.of_nat k).
Proof.
  apply Qc_is_canon. unfold z. cbn [this Qcplus Q2Qc].
  rewrite !Qred_correct, Nat2Z.inj_succ, <-Z.add_1_l.
  by rewrite inject_Z_plus.
Qed.

Lemma z_pos (k : nat) : 0 < z (Z.of_nat (S k)).
Proof.
  unfold Qclt, z. cbn [this Q2Qc]. rewrite !Qred_correct.
  unfold Qlt. cbn [Qnum Qden inject_Z]. lia.
Qed.

(** The mean of rows that each sum to one sums to one. *)
Lemma np_sum_np_mean_rows (n : nat) (X : list vec) :
  X ≠ [] → Forall (λ x, length x = n ∧ np_sum x = 1) X →
  np_sum (np_mean_rows n X) = 1.
Proof.
  intros HX Hrows. unfold np_mean_rows. rewrite np_sum_vscale.
  assert (length (foldr vadd (replicate n 0) X) = n ∧
          np_sum (foldr vadd (replicate n 0) X) = z (Z.of_nat (length X)))
    as [_ ->].
  { clear HX. induction Hrows as [|x X [Hx Hsum] _ [IHlen IHsum]].
    - split; [apply length_replicate|apply np_sum_zeros].
    - cbn [foldr length]. split; [by apply length_vadd|].
      rewrite np_sum_vadd, Hsum, IHsum, z_succ by congruence. done. }
  destruct X as [|x X]; [done|]. cbn [length].
  pose proof (z_pos (length X)) as Hpos.
  apply Qclt_not_eq in Hpos. field. congruence.
Qed.

Section fitted.
Variable magListForSed : vec → vec → vec.
Variable resampleSED : vec → vec → vec → vec.
Variable sklPCA_fit : Z → list vec → result PCA.

(** X6. The colours [specPCA] keeps are the differences of neighbouring
    magnitudes, [mags[i] - mags[i+1]], one row for each spectrum and one
    column for each pair of neighbouring filters, whenever the magnitude
    collaborator answers with the same number of magnitudes, at least
    two, for every spectrum. *)
Theorem specPCA_colors_neighbours (spec_list_orig : list Sed) (comps : Z)
    (minWavelen maxWavelen : Qc) (self : pcaSED) (F : nat) :
  specPCA magListForSed resampleSED sklPCA_fit spec_list_orig comps
          minWavelen maxWavelen = Ok self →
  Forall (λ spec, length (magListForSed (wavelen spec) (flambda spec)) = F)
         spec_list_orig →
  (2 ≤ F)%nat →
  rows (colors self) = adjacent_colors <$> rows (mags self) ∧
  nrows (colors self) = length spec_list_orig ∧
  array_wf (colors self) ∧ ncols (colors self) = (F - 1)%nat.
Proof.
  intros (first & rest & ws & p & -> & _ & _ & ->)%specPCA_inv Hmags HF.
  unfold fit_of. cbv zeta. cbn [colors mags].
  set (full_mags := (λ spec, magListForSed (wavelen spec) (flambda spec))
                    <$> first :: rest).
  assert (Forall (λ r, length r = F) full_mags) as Hrows.
  { by apply Forall_fmap. }
  assert (length (default [] (head full_mags)) = F) as ->.
  { by apply Forall_cons in Hrows as [? _]. }
  pose proof (color_table full_mags F Hrows HF) as Htable.
  split; [exact Htable|]. unfold nrows, array_wf. rewrite Htable.
  assert (ncols (np_transpose
                   (np_array2
                      ((λ k, vsub (mag_column full_mags k)
                                  (mag_column full_mags (S k)))
                       <$> seq 0 (F - 1)))) = (F - 1)%nat) as ->.
  { unfold np_transpose, np_array2, nrows. cbn [ncols rows].
    by rewrite length_fmap, length_seq. }
  split; [unfold full_mags; by rewrite !length_fmap|]. split; [|done].
  apply Forall_fmap. eapply Forall_impl; [exact Hrows|].
  intros r Hr. unfold compose, adjacent_colors. cbn beta in Hr |- *.
  rewrite length_zip_with, length_drop. lia.
Qed.

(** X7. Every spectrum of a fit is the spectrum given at its place,
    under its name, resampled to the grid of the fit, and carries as
    [scale_flux] its normalised flux, of the length of the flux and, when
    the resampled flux does not sum to zero, of sum one. *)
Theorem specPCA_normalised_fluxes (spec_list_orig : list Sed) (comps : Z)
    (minWavelen maxWavelen : Qc) (self : pcaSED) :
  specPCA magListForSed resampleSED sklPCA_fit spec_list_orig comps
          minWavelen maxWavelen = Ok self →
  Forall2 (λ orig spec,
      name spec = name orig ∧
      flambda spec
      = resampleSED (wavelen orig) (flambda orig) (wavelen spec) ∧
      ∃ sf, scale_flux spec = Some sf ∧
            length sf = length (flambda spec) ∧
            (np_sum (flambda spec) ≠ 0 → np_sum sf = 1))
    spec_list_orig (spec_list self).
Proof.
  intros (first & rest & ws & p & -> & _ & _ & ->)%specPCA_inv.
  unfold fit_of. cbv zeta. cbn [spec_list].
  apply Forall2_fmap_r, Forall_Forall2_diag, Forall_forall.
  intros orig _. unfold resampled_copy. cbn [name flambda wavelen scale_flux].
  do 2 (split; [done|]). eexists. split; [done|].
  split; [unfold scaleSpectrum; by rewrite length_fmap|].
  apply np_sum_scaleSpectrum.
Qed.

(** X8. When the PCA answers with the mean of the rows it was given as
    its [mean_] (nothing is asked of its axes) and no resampled flux
    sums to zero, the mean spectrum of the fit sums to one, as every
    normalised spectrum does; in exact arithmetic, exactly. *)
Theorem specPCA_mean_sums_to_one (spec_list_orig : list Sed) (comps : Z)
    (minWavelen maxWavelen : Qc) (self : pcaSED) :
  (∀ X p, sklPCA_fit comps X = Ok p →
          Forall (λ x, length x = ncols (components_ p)) X ∧
          mean_ p = np_mean_rows (ncols (components_ p)) X) →
  specPCA magListForSed resampleSED sklPCA_fit spec_list_orig comps
          minWavelen maxWavelen = Ok self →
  Forall (λ spec, np_sum (flambda spec) ≠ 0) (spec_list self) →
  np_sum (mean_spec self) = 1.
Proof.
  intros Hcontract (first & rest & ws & p & -> & _ & Hp & ->)%specPCA_inv.
  unfold fit_of. cbv zeta. cbn [spec_list mean_spec]. intros Hsums.
  apply Hcontract in Hp as [Hfeat ->].
  apply np_sum_np_mean_rows; [done|].
  apply Forall_fmap, Forall_forall. intros spec Hin.
  rewrite Forall_fmap, Forall_forall in Hfeat.
  rewrite Forall_fmap, Forall_forall in Hsums.
  specialize (Hfeat spec Hin). specialize (Hsums spec Hin).
  unfold compose in *. cbn [resampled_copy flambda] in Hsums.
  split; [exact Hfeat|]. by apply np_sum_scaleSpectrum.
Qed.
End fitted.

Lemma specPCA_colors_neighbours_witness :
  ∃ self,
    specPCA sample_mags resample_same_grid four_pca four_spectra 2 (z 1) (z 4)
    = Ok self ∧
    rows (colors self) = adjacent_colors <$> rows (mags self) ∧
    nrows (colors self) = 4%nat ∧
    array_wf (colors self) ∧ ncols (colors self) = 2%nat.
Proof.
  destruct (specPCA sample_mags resample_same_grid four_pca four_spectra 2
              (z 1) (z 4)) as [self|e] eqn:Hfit; [|by vm_compute in Hfit].
  exists self. split; [done|].
  apply (specPCA_colors_neighbours
           sample_mags resample_same_grid four_pca four_spectra 2 (z 1) (z 4)
           self 3 Hfit); [compute_done|lia].
Defined.

Lemma specPCA_normalised_fluxes_witness :
  ∃ self,
    specPCA sample_mags resample_same_grid four_pca four_spectra 2 (z 1) (z 4)
    = Ok self ∧
    Forall2 (λ orig spec,
        name spec = name orig ∧
        flambda spec
        = resample_same_grid (wavelen orig) (flambda orig) (wavelen spec) ∧
        ∃ sf, scale_flux spec = Some sf ∧
              length sf = length (flambda spec) ∧
              (np_sum (flambda spec) ≠ 0 → np_sum sf = 1))
      four_spectra (spec_list self).
Proof.
  destruct (specPCA sample_mags resample_same_grid four_pca four_spectra 2
              (z 1) (z 4)) as [self|e] eqn:Hfit; [|by vm_compute in Hfit].
  exists self. split; [done|].
  exact (specPCA_normalised_fluxes
           sample_mags resample_same_grid four_pca four_spectra 2 (z 1) (z 4)
           self Hfit).
Defined.

(** [centring_pca] answers with the mean of the rows, which have the
    length of its axes. *)
Lemma centring_pca_mean (comps : Z) (X : list vec) (p : PCA) :
  centring_pca comps X = Ok p →
  Forall (λ x, length x = ncols (components_ p)) X ∧
  mean_ p = np_mean_rows (ncols (components_ p)) X.
Proof.
  unfold centring_pca. cbv zeta. case_bool_decide as Hlen; [|done].
  by intros [= <-].
Qed.

Lemma specPCA_mean_sums_to_one_witness :
  ∃ self,
    specPCA sample_mags resample_same_grid centring_pca two_spectra 1
            (z 1) (z 2) = Ok self ∧
    np_sum (mean_spec self) = 1.
Proof.
  destruct (specPCA sample_mags resample_same_grid centring_pca two_spectra 1
              (z 1) (z 2)) as [self|e] eqn:Hfit; [|by vm_compute in Hfit].
  exists self. split; [done|].
  apply (specPCA_mean_sums_to_one
           sample_mags resample_same_grid centring_pca two_spectra 1
           (z 1) (z 2)).
  - apply centring_pca_mean.
  - exact Hfit.
  - assert ((self' ← specPCA sample_mags resample_same_grid centring_pca
                       two_spectra 1 (z 1) (z 2);
             Ok (bool_decide
                   (Forall (λ spec, np_sum (flambda spec) ≠ 0)
                           (spec_list self'))))
            = Ok true) as Hcheck by (vm_compute; reflexivity).
    rewrite Hfit in Hcheck. injection Hcheck as Hcheck.
    exact (bool_decide_eq_true_1 _ Hcheck).
Defined.

(** ** Reconstruction *)

Lemma np_cols_to_bound (a : ndarray2) (k k' : Z) :
  array_wf a → py_bound (ncols a) k = py_bound (ncols a) k' →
  np_cols_to a k = np_cols_to a k'.
Proof.
  intros Hwf Hk. unfold np_cols_to. rewrite Hk. f_equal.
  apply Forall_fmap_ext. eapply Forall_impl; [exact Hwf|].
  intros r Hr. cbn beta in Hr |- *. unfold py_slice_to. by rewrite Hr, Hk.
Qed.

(** [reconstruct_spectra] without the array operations: the slice
    either keeps every coefficient or makes the product undefined. *)
Lemma reconstruct_spectra_cases (self : pcaSED) (num_comps : Z) :
  fitted_wf self →
  reconstruct_spectra self num_comps
  = if bool_decide (py_bound (nrows (eigenspectra self)) num_comps
                    = nrows (eigenspectra self))
    then Ok (Array2 (ncols (eigenspectra self))
               (truncated_reconstruction self (nrows (eigenspectra self))))
    else Raise ValueError.
Proof.
  intros Hwf. case_bool_decide as Hk.
  - rewrite <-(reconstruct_spectra_all self (Z.of_nat (nrows (eigenspectra self))))
      by (done || lia).
    unfold reconstruct_spectra.
    rewrite (np_cols_to_bound _ num_comps (Z.of_nat (nrows (eigenspectra self))));
      [done|by destruct Hwf|].
    destruct Hwf as [_ _ -> _ _]. rewrite Hk. by rewrite py_bound_ge by lia.
  - destruct Hwf as [_ _ Hc _ _]. unfold reconstruct_spectra, np_dot.
    cbn [np_cols_to ncols]. rewrite Hc.
    by rewrite bool_decide_eq_false_2 by done.
Qed.

Lemma length_truncated_reconstruction (self : pcaSED) (k : nat) :
  length (truncated_reconstruction self k) = nrows (projected self).
Proof. unfold truncated_reconstruction. by rewrite length_fmap. Qed.

(** X9. [reconstruct_spectra] never returns a truncated reconstruction.
    On an instance of the documented shapes it either raises
    [ValueError], and then [num_comps] is below the number of
    eigenspectra, or returns the reconstruction from all eigenspectra,
    an array with one row for each spectrum and one column for each
    wavelength, and then [num_comps] is at least the number of
    eigenspectra, or there is none. *)
Theorem reconstruct_spectra_never_truncates (self : pcaSED) (num_comps : Z) :
  fitted_wf self →
  match reconstruct_spectra self num_comps with
  | Ok reconstructed_specs =>
    ((Z.of_nat (nrows (eigenspectra self)) ≤ num_comps)%Z ∨
     nrows (eigenspectra self) = 0%nat) ∧
    rows reconstructed_specs
    = truncated_reconstruction self (nrows (eigenspectra self)) ∧
    nrows reconstructed_specs = length (spec_list self) ∧
    ncols reconstructed_specs = length (mean_spec self) ∧
    array_wf reconstructed_specs
  | Raise e =>
    e = ValueError ∧ (num_comps < Z.of_nat (nrows (eigenspectra self)))%Z
  end.
Proof.
  intros Hwf. rewrite reconstruct_spectra_cases by done.
  case_bool_decide as Hk.
  - split; [unfold py_bound in Hk; case_bool_decide; lia|].
    split; [done|]. cbn [ncols].
    destruct Hwf as [He Hp Hc Hm Hs].
    split; [unfold nrows at 1; cbn [rows];
            by rewrite length_truncated_reconstruction|].
    split; [done|]. unfold array_wf. cbn [rows ncols]. unfold truncated_reconstruction.
    apply Forall_fmap, Forall_true. intros coeff. cbn beta.
    apply length_vadd; [done|]. apply length_vecmat.
    by apply Forall_take.
  - split; [done|]. unfold py_bound in Hk. case_bool_decide; lia.
Qed.

Lemma reconstruct_spectra_never_truncates_witness :
  match reconstruct_spectra sample_fit (-1) with
  | Ok reconstructed_specs =>
    ((Z.of_nat (nrows (eigenspectra sample_fit)) ≤ -1)%Z ∨
     nrows (eigenspectra sample_fit) = 0%nat) ∧
    rows reconstructed_specs
    = truncated_reconstruction sample_fit (nrows (eigenspectra sample_fit)) ∧
    nrows reconstructed_specs = length (spec_list sample_fit) ∧
    ncols reconstructed_specs = length (mean_spec sample_fit) ∧
    array_wf reconstructed_specs
  | Raise e =>
    e = ValueError ∧ (-1 < Z.of_nat (nrows (eigenspectra sample_fit)))%Z
  end.
Proof.
  apply (reconstruct_spectra_never_truncates sample_fit (-1)).
  apply sample_fit_wf.
Defined.

(** ** The colours of [calc_new_colors] *)

Lemma mapM_result_Raise {A B} (f : A → result B) (e : exn)
    (l1 l2 : list A) (x : A) :
  Forall (λ y, ∃ v, f y = Ok v) l1 → f x = Raise e →
  mapM f (l1 ++ x :: l2) = Raise e.
Proof.
  intros Hl1 Hx. induction Hl1 as [|y l1 [v Hy] _ IH]; simpl.
  - by rewrite Hx.
  - by rewrite Hy, IH.
Qed.

(** Element [x] of the comprehension of line 246. *)
Lemma color_entry (mags : vec) (x : nat) :
  (a ← py_index mags (Z.of_nat x);
   b ← py_index mags (Z.of_nat x - 1);
   Ok (a - b))
  = match mags !! x with
    | Some a =>
      Ok (a - default 0 ((default 0 (last mags) :: mags) !! x))
    | None => Raise IndexError
    end.
Proof.
  rewrite py_index_nat. destruct (mags !! x) as [a|] eqn:Ha; [|done].
  cbn [mbind result_bind]. destruct x as [|x].
  - change (Z.of_nat 0 - 1)%Z with (-1)%Z. rewrite py_index_last.
    destruct (last mags) as [b|] eqn:Hb; [done|].
    apply last_None in Hb. by subst mags.
  - replace (Z.of_nat (S x) - 1)%Z with (Z.of_nat x) by lia.
    rewrite py_index_nat. cbn [lookup list_lookup].
    destruct (lookup_lt_is_Some_2 mags x) as [b Hb].
    { apply lookup_lt_Some in Ha. lia. }
    change (mags !! x) with (lookup x mags). by rewrite Hb.
Qed.

Lemma py_range_seq (n : nat) : py_range (Z.of_nat n - 1) = Z.of_nat <$> seq 0 (n - 1).
Proof.
  unfold py_range. rewrite py_range2_seq. do 2 f_equal. lia.
Qed.

Lemma colors_of_mags_raises (filters : list string) (mags : vec) :
  (length mags < length filters - 1)%nat →
  colors_of_mags filters mags = Raise IndexError.
Proof.
  intros Hlen. unfold colors_of_mags. rewrite py_range_seq.
  set (n := (length filters - 1)%nat) in *.
  replace n with (length mags + S (n - S (length mags)))%nat by lia.
  rewrite seq_app, fmap_app. cbn [seq fmap list_fmap].
  apply mapM_result_Raise.
  - apply Forall_fmap, Forall_forall. intros x Hx%elem_of_seq.
    unfold compose. rewrite color_entry.
    destruct (lookup_lt_is_Some_2 mags x) as [a ->]; [lia|]. by eexists.
  - rewrite color_entry. by rewrite lookup_ge_None_2 by lia.
Qed.

Lemma colors_of_mags_returns (filters : list string) (mags : vec) :
  (length filters - 1 ≤ length mags)%nat →
  colors_of_mags filters mags
  = Ok (take (length filters - 1)
          (zip_with Qcminus mags (default 0 (last mags) :: mags))).
Proof.
  intros Hlen. unfold colors_of_mags. rewrite py_range_seq.
  set (n := (length filters - 1)%nat) in *.
  rewrite (mapM_result_Ok _ Z.of_nat
             (λ x, default 0 (mags !! x)
                   - default 0 ((default 0 (last mags) :: mags) !! x))).
  - f_equal. symmetry. apply list_as_seq.
    + rewrite length_take, length_zip_with. simpl. lia.
    + intros i Hi. rewrite lookup_take, decide_True by done.
      rewrite lookup_zip_with.
      destruct (lookup_lt_is_Some_2 mags i) as [a ->]; [lia|].
      destruct (lookup_lt_is_Some_2 (default 0 (last mags) :: mags) i)
        as [b ->]; [simpl; lia|].
      done.
  - apply Forall_forall. intros x Hx%elem_of_seq. rewrite color_entry.
    by destruct (lookup_lt_is_Some_2 mags x) as [a ->]; [lia|].
Qed.

(** X10. The comprehension of line 246 in closed form. With fewer
    magnitudes than the number of filters less one it raises
    [IndexError]; otherwise it returns, for each filter but the last,
    the magnitude minus the one before it, the first minus the last of
    all magnitudes. *)
Theorem colors_of_mags_cases (filters : list string) (mags : vec) :
  colors_of_mags filters mags
  = if bool_decide (length mags < length filters - 1)%nat
    then Raise IndexError
    else Ok (take (length filters - 1)
               (zip_with Qcminus mags (default 0 (last mags) :: mags))).
Proof.
  case_bool_decide as Hlen.
  - by apply colors_of_mags_raises.
  - apply colors_of_mags_returns. lia.
Qed.

Lemma colors_of_mags_wrapped (filters : list string) (mags : vec) :
  length mags = length filters →
  colors_of_mags filters mags = Ok (wrapped_colors mags).
Proof.
  intros Hlen. rewrite colors_of_mags_returns by lia. f_equal.
  unfold wrapped_colors. rewrite <-Hlen, zip_with_take.
  apply zip_with_take_l'. rewrite length_take. simpl. lia.
Qed.

(** X11. [calc_new_colors] hands on the [ValueError] of
    [reconstruct_spectra]: when there is an eigenspectrum and fewer
    components are asked for than there are eigenspectra, it returns no
    colours. *)
Theorem calc_new_colors_fewer_components_raises
    (magListForSed : vec → vec → vec) (filters : list string)
    (self : pcaSED) (num_comps : Z) :
  fitted_wf self → (0 < nrows (eigenspectra self))%nat →
  (num_comps < Z.of_nat (nrows (eigenspectra self)))%Z →
  calc_new_colors magListForSed filters self num_comps = Raise ValueError.
Proof.
  intros Hwf Hpos Hk. unfold calc_new_colors.
  rewrite reconstruct_spectra_cases by done.
  rewrite bool_decide_eq_false_2; [done|].
  intros Hb. unfold py_bound in Hb. case_bool_decide; lia.
Qed.

Lemma calc_new_colors_fewer_components_raises_witness :
  calc_new_colors sample_mags ["u"; "g"; "r"] sample_fit 1 = Raise ValueError.
Proof.
  apply calc_new_colors_fewer_components_raises;
    [apply sample_fit_wf|compute_done|compute_done].
Defined.

(** X12. Asked for at least as many components as there are
    eigenspectra, and given one magnitude for each filter,
    [calc_new_colors] returns one row of colours for each spectrum: the
    colours of line 246 of the magnitudes of the complete reconstruction
    on the grid of the first spectrum. *)
Theorem calc_new_colors_returns
    (magListForSed : vec → vec → vec) (filters : list string)
    (self : pcaSED) (num_comps : Z) :
  let grid := default [] (wavelen <$> head (spec_list self)) in
  let reconstructed_specs :=
    truncated_reconstruction self (nrows (eigenspectra self)) in
  fitted_wf self →
  (Z.of_nat (nrows (eigenspectra self)) ≤ num_comps)%Z →
  Forall (λ spec, length (magListForSed grid spec) = length filters)
         reconstructed_specs →
  calc_new_colors magListForSed filters self num_comps
  = Ok ((λ spec, wrapped_colors (magListForSed grid spec))
        <$> reconstructed_specs) ∧
  length reconstructed_specs = length (spec_list self).
Proof.
  intros grid reconstructed_specs Hwf Hk Hmags.
  assert (length reconstructed_specs = length (spec_list self)) as Hrows.
  { unfold reconstructed_specs. rewrite length_truncated_reconstruction.
    by destruct Hwf as [_ _ _ _ <-]. }
  split; [|exact Hrows].
  unfold calc_new_colors. rewrite reconstruct_spectra_all by done.
  cbn [mbind result_bind rows]. fold reconstructed_specs.
  rewrite py_index_head. unfold grid in *.
  destruct (head (spec_list self)) as [s0|] eqn:Hhead.
  - rewrite <-(list_fmap_id reconstructed_specs) at 1.
    apply mapM_result_Ok. eapply Forall_impl; [exact Hmags|].
    intros spec Hlen. cbn beta in Hlen |- *. cbn [mbind result_bind].
    by apply colors_of_mags_wrapped.
  - apply head_None in Hhead. rewrite Hhead in Hrows.
    apply nil_length_inv in Hrows. by rewrite Hrows.
Qed.

Lemma calc_new_colors_returns_witness :
  calc_new_colors sample_mags ["u"; "g"; "r"] sample_fit 2
  = Ok ((λ spec, wrapped_colors (sample_mags [z 1; z 2; z 3] spec))
        <$> truncated_reconstruction sample_fit 2) ∧
  length (truncated_reconstruction sample_fit 2) = 2%nat.
Proof.
  refine (calc_new_colors_returns sample_mags ["u"; "g"; "r"] sample_fit 2
            sample_fit_wf _ _); compute_done.
Defined.

Lemma zip_with_Qcminus_swap (k l : vec) :
  Qcopp <$> zip_with Qcminus k l = zip_with Qcminus l k.
Proof.
  revert l. induction k as [|a k IH]; intros [|b l]; try done.
  cbn [zip_with fmap list_fmap]. f_equal; [ring|apply IH].
Qed.

Lemma last_cons_default {A} (d x : A) (l : list A) :
  default d (last (x :: l)) = default x (last l).
Proof.
  revert d x. induction l as [|y l IH]; intros d x; [done|].
  change (last (x :: y :: l)) with (last (y :: l)). by rewrite !IH.
Qed.

(** The differences of neighbours add up to the first less the last. *)
Lemma adjacent_telescopes (m0 : Qc) (rest : vec) :
  np_sum (zip_with Qcminus (m0 :: rest) rest) = m0 - default m0 (last rest).
Proof.
  revert m0. induction rest as [|a r IH]; intros m0.
  - change (0 = m0 - m0). ring.
  - change (zip_with Qcminus (m0 :: a :: r) (a :: r))
      with ((m0 - a) :: zip_with Qcminus (a :: r) r).
    rewrite np_sum_cons, IH, last_cons_default. ring.
Qed.

(** X13. How the colours of line 246 relate to the differences of
    neighbouring magnitudes [mags[i] - mags[i+1]]: for two magnitudes
    and more, the first is the sum of all these differences (the first
    magnitude less the last), and each of the others is the difference
    of the pair before it with the sign turned. With exactly two
    magnitudes the two notions agree. *)
Theorem wrapped_colors_adjacent (mags : vec) :
  (2 ≤ length mags)%nat →
  wrapped_colors mags
  = np_sum (adjacent_colors mags)
    :: (Qcopp <$> take (length mags - 2) (adjacent_colors mags)) ∧
  (length mags = 2%nat → wrapped_colors mags = adjacent_colors mags).
Proof.
  intros Hlen. destruct mags as [|m0 [|a r]]; [simpl in Hlen; lia..|].
  assert (wrapped_colors (m0 :: a :: r)
          = np_sum (adjacent_colors (m0 :: a :: r))
            :: (Qcopp <$> take (length (m0 :: a :: r) - 2)
                               (adjacent_colors (m0 :: a :: r)))) as Hw.
  { unfold wrapped_colors, adjacent_colors.
    change (drop 1 (m0 :: a :: r)) with (a :: r).
    change (length (m0 :: a :: r)) with (S (S (length r))).
    replace (S (S (length r)) - 1)%nat with (S (length r)) by lia.
    replace (S (S (length r)) - 2)%nat with (length r) by lia.
    rewrite adjacent_telescopes, (last_cons_default 0 m0).
    set (l := a :: r). set (lst := default m0 (last l)).
    change (take (S (length r)) (lst :: m0 :: l))
      with (lst :: take (length r) (m0 :: l)).
    change (zip_with Qcminus (m0 :: l) (lst :: take (length r) (m0 :: l)))
      with ((m0 - lst) :: zip_with Qcminus l (take (length r) (m0 :: l))).
    f_equal. rewrite zip_with_take, zip_with_Qcminus_swap.
    symmetry. apply zip_with_take_l'. rewrite length_take. lia. }
  split; [exact Hw|]. intros Hr. rewrite Hw.
  destruct r as [|? ?]; [|simpl in Hr; lia].
  unfold adjacent_colors. cbn. f_equal.
  change (np_sum [m0 - a]) with (m0 - a + 0). ring.
Qed.

Lemma wrapped_colors_adjacent_witness :
  wrapped_colors [z 6; z 9; z 3]
  = np_sum (adjacent_colors [z 6; z 9; z 3])
    :: (Qcopp <$> take 1 (adjacent_colors [z 6; z 9; z 3])) ∧
  (length [z 6; z 9; z 3] = 2%nat →
   wrapped_colors [z 6; z 9; z 3] = adjacent_colors [z 6; z 9; z 3]).
Proof. apply (wrapped_colors_adjacent [z 6; z 9; z 3]). simpl. lia. Defined.

(** ** What [write_output] leaves alone *)

Lemma np_savetxt_below (d leaf : string) (X : vec) (s : fs) :
  no_slash leaf = true →
  np_savetxt (d +:+ String "/" leaf) X s
  = if bool_decide ((d +:+ String "/" leaf ∉ dirs s) ∧ d ∈ dirs s)
    then (Ok (), mkFs (dirs s) (<[d +:+ String "/" leaf := X]> (files s)))
    else (Raise IOError, s).
Proof.
  intros Hleaf. unfold np_savetxt. rewrite last_parents by done. cbv zeta.
  repeat case_bool_decide; try done; tauto.
Qed.

Lemma os_makedirs_below (d leaf : string) (s : fs) :
  dirs_closed (dirs s) → no_slash leaf = true → d ∈ dirs s →
  os_makedirs (d +:+ String "/" leaf) s = (Raise OSError, s) ∨
  os_makedirs (d +:+ String "/" leaf) s
  = (Ok (), mkFs ({[d +:+ String "/" leaf]} ∪ dirs s) (files s)).
Proof.
  intros Hwf Hleaf Hd. unfold os_makedirs. case_bool_decide; [by left|right].
  f_equal. f_equal. rewrite parents_app, (parents_no_slash leaf) by done.
  apply set_eq. intros q. rewrite !elem_of_union, elem_of_list_to_set.
  simpl. rewrite elem_of_app, list_elem_of_singleton. split.
  - intros [[Hq|[Hq|Hq]]|Hq]; [by left|right..]; [|by subst|done].
    by apply (Hwf d q).
  - intros [Hq|Hq]; [by left; left|by right].
Qed.

Lemma write_output_frame_refl (outFolder : string) (s : fs) :
  write_output_frame outFolder s s.
Proof.
  split; [done|]. split; [|done]. intros q Hq. apply elem_of_union. by right.
Qed.

Lemma write_output_frame_trans (outFolder : string) (s1 s2 s3 : fs) :
  write_output_frame outFolder s1 s2 → write_output_frame outFolder s2 s3 →
  write_output_frame outFolder s1 s3.
Proof.
  intros (Hd & Hu & Hf & Hp) (Hd' & Hu' & Hf' & Hp').
  split; [by etrans|]. split; [|split; [by etrans|]].
  - intros q Hq. apply Hu' in Hq.
    apply elem_of_union in Hq as [Hq|Hq]; [|by apply Hu].
    apply elem_of_union. by left.
  - intros path Hpath. by rewrite Hp', Hp.
Qed.

Lemma write_output_frame_insert (outFolder rest : string) (X : vec) (s : fs) :
  write_output_frame outFolder s
    (mkFs (dirs s) (<[outFolder +:+ String "/" rest := X]> (files s))).
Proof.
  split; [done|]. cbn [files dirs].
  split; [intros q Hq; apply elem_of_union; by right|]. split.
  - rewrite dom_insert. apply union_subseteq_r.
  - intros path Hpath. rewrite lookup_insert_ne; [done|].
    intros <-. apply Hpath. by exists rest.
Qed.

Lemma write_output_frame_mkdir (outFolder leaf : string) (s : fs) :
  leaf = "eigenspectra" ∨ leaf = "components" →
  write_output_frame outFolder s
    (mkFs ({[outFolder +:+ String "/" leaf]} ∪ dirs s) (files s)).
Proof.
  intros Hleaf. cbn [files dirs].
  split; [intros q Hq; apply elem_of_union; by right|]. cbn [files dirs].
  split; [|done]. intros q [Hq|Hq]%elem_of_union; apply elem_of_union;
    [left|by right].
  apply elem_of_singleton in Hq as ->. apply elem_of_union.
  destruct Hleaf as [-> | ->]; [left|right]; by apply elem_of_singleton.
Qed.

Section frame_loops.
Context {A : Type} (outFolder : string) (rest : A → string) (data : A → vec).
Context (body : A → io unit).
Hypothesis body_eq :
  ∀ x, body x = np_savetxt (outFolder +:+ String "/" (rest x)) (data x).

(** A loop of [np.savetxt] calls below [outFolder] makes no directory
    and stays within the frame. *)
Lemma for_savetxt_below (l : list A) (s : fs) :
  dirs (for_ l body s).2 = dirs s ∧
  write_output_frame outFolder s (for_ l body s).2.
Proof.
  revert s. induction l as [|x l IH]; intros s.
  { split; [done|apply write_output_frame_refl]. }
  simpl. rewrite io_bind_unfold, body_eq.
  destruct (np_savetxt_cases (outFolder +:+ String "/" (rest x)) (data x) s)
    as [-> | ->]; [|split; [done|apply write_output_frame_refl]].
  destruct (IH (mkFs (dirs s)
                  (<[outFolder +:+ String "/" (rest x) := data x]> (files s))))
    as [Hd Hf].
  split; [exact Hd|].
  eapply write_output_frame_trans; [|exact Hf].
  apply write_output_frame_insert.
Qed.
End frame_loops.

(** X14. Without spectra, or when the output folder does not exist,
    [write_output] raises at its first statement ([IndexError] for
    [self.spec_list[0]], else the [IOError] of opening
    [wavelengths.dat]) and the disk is as it was: the output folder is
    not made. *)
Theorem write_output_missing_folder
    (self : pcaSED) (outFolder : string) (s : fs) :
  spec_list self = [] ∨ outFolder ∉ dirs s →
  write_output self outFolder s
  = (Raise (match spec_list self with [] => IndexError | _ => IOError end), s).
Proof.
  intros Hmiss. unfold write_output.
  rewrite io_bind_unfold. unfold io_lift. rewrite py_index_head.
  destruct (spec_list self) as [|s0 l]; [done|]. cbn [head].
  destruct Hmiss as [?|Hout]; [done|].
  rewrite io_bind_unfold.
  rewrite (np_savetxt_below outFolder "wavelengths.dat") by done.
  rewrite bool_decide_eq_false_2; [done|]. by intros [_ ?].
Qed.

Lemma write_output_missing_folder_witness :
  write_output sample_fit "results" sample_disk = (Raise IOError, sample_disk).
Proof.
  apply (write_output_missing_folder sample_fit "results" sample_disk).
  right. compute_done.
Defined.

(** X15. Whether it returns or raises, [write_output] stays within the
    output folder: on a disk where every directory lies in a directory,
    it removes no directory and no file, makes no directory other than
    [eigenspectra] and [components] below the output folder, and leaves
    every file that is not below the output folder as it was. *)
Theorem write_output_stays_in_folder
    (self : pcaSED) (outFolder : string) (s : fs) :
  dirs_closed (dirs s) →
  write_output_frame outFolder s (write_output self outFolder s).2.
Proof.
  intros Hclosed. unfold write_output.
  rewrite io_bind_unfold. unfold io_lift.
  destruct (py_index (spec_list self) 0) as [s0|e];
    [|apply write_output_frame_refl].
  rewrite io_bind_unfold.
  rewrite (np_savetxt_below outFolder "wavelengths.dat") by done.
  case_bool_decide as Hwl; [|apply write_output_frame_refl].
  destruct Hwl as [_ Hout].
  set (s1 := mkFs (dirs s) _).
  apply (write_output_frame_trans _ s s1);
    [apply (write_output_frame_insert outFolder "wavelengths.dat")|].
  assert (dirs s1 = dirs s) as Hd1 by done.
  (* eigenspectra/ *)
  rewrite io_bind_unfold.
  destruct (os_makedirs_below outFolder "eigenspectra" s1)
    as [-> | ->]; [done..| |]; [apply write_output_frame_refl|].
  set (s2 := mkFs _ (files s1)).
  apply (write_output_frame_trans _ s1 s2);
    [apply (write_output_frame_mkdir outFolder "eigenspectra"); by left|].
  assert (dirs s2 = {[outFolder +:+ "/eigenspectra"]} ∪ dirs s) as Hd2
    by (by rewrite <-Hd1).
  rewrite io_bind_unfold.
  match goal with |- context [for_ ?l ?body s2] =>
    pose proof (for_savetxt_below outFolder
                  (λ x, "eigenspectra/eigenspectra_" +:+ pretty x.2 +:+ ".dat")
                  (λ x, x.1) body
                  (λ x, match x with (_, _) =>
                          f_equal (λ p, np_savetxt p _)
                                  (string_app_assoc outFolder "/eigenspectra" _)
                        end)
                  l s2) as [Hd3 Hf3];
    destruct (for_ l body s2) as [[[]|e] s3]
  end; cbn [snd] in Hd3, Hf3 |- *; [|exact Hf3].
  eapply write_output_frame_trans; [exact Hf3|].
  (* components/ *)
  rewrite io_bind_unfold.
  destruct (os_makedirs_below outFolder "components" s3) as [-> | ->].
  { rewrite Hd3, Hd2. by apply (dirs_closed_add _ outFolder "eigenspectra"). }
  { done. }
  { rewrite Hd3, Hd2. apply elem_of_union. by right. }
  { apply write_output_frame_refl. }
  set (s4 := mkFs _ (files s3)).
  apply (write_output_frame_trans _ s3 s4);
    [apply (write_output_frame_mkdir outFolder "components"); by right|].
  rewrite io_bind_unfold.
  match goal with |- context [for_ ?l ?body s4] =>
    pose proof (for_savetxt_below outFolder
                  (λ x, "components/" +:+ name x.1 +:+ ".dat")
                  (λ x, x.2) body
                  (λ x, match x with (_, _) =>
                          f_equal (λ p, np_savetxt p _)
                                  (string_app_assoc outFolder "/components" _)
                        end)
                  l s4) as [Hd5 Hf5];
    destruct (for_ l body s4) as [[[]|e] s5]
  end; cbn [snd] in Hd5, Hf5 |- *; [|exact Hf5].
  eapply write_output_frame_trans; [exact Hf5|].
  (* meanSpectrum.dat *)
  destruct (np_savetxt_cases (outFolder +:+ "/meanSpectrum.dat")
              (mean_spec self) s5) as [-> | ->];
    [apply write_output_frame_insert|apply write_output_frame_refl].
Qed.

Lemma write_output_stays_in_folder_witness :
  write_output_frame "out" sample_disk
    (write_output sample_fit "out" sample_disk).2.
Proof.
  apply (write_output_stays_in_folder sample_fit "out" sample_disk).
  exact (proj2 (ready_wf _ _ _ sample_disk_ready)).
Defined.

(** X16. Saving a second time into the same folder does not go through:
    after a save on a ready disk, the same call raises [OSError] at
    [os.makedirs], having written [wavelengths.dat] once more with what
    it held, and so leaves the first save as it is. *)
Theorem write_output_twice (self : pcaSED) (outFolder : string) (s : fs) :
  save_ready self outFolder s →
  (write_output self outFolder s).1 = Ok () ∧
  write_output self outFolder (write_output self outFolder s).2
  = (Raise OSError, (write_output self outFolder s).2).
Proof.
  intros Hready. rewrite write_output_ready by done. split; [done|].
  cbn [snd]. pose proof (saved_wavelengths self outFolder s) as Hwl.
  destruct Hready as [_ Hout Hspec _ _ _ Hw _].
  assert (dirs (saved self outFolder s)
          = {[outFolder +:+ "/components"]}
            ∪ ({[outFolder +:+ "/eigenspectra"]} ∪ dirs s)) as Hdirs by done.
  unfold write_output at 1.
  rewrite io_bind_unfold. unfold io_lift. rewrite py_index_head.
  destruct (head (spec_list self)) as [s0|] eqn:Hhead;
    [|by apply head_None in Hhead].
  cbn [fmap option_fmap option_map default] in Hwl.
  rewrite io_bind_unfold.
  rewrite (np_savetxt_below outFolder "wavelengths.dat") by done.
  rewrite bool_decide_eq_true_2.
  - rewrite io_bind_unfold, os_makedirs_exists.
    + rewrite insert_id by exact Hwl. by destruct (saved self outFolder s).
    + cbn [dirs]. rewrite Hdirs, !elem_of_union, !elem_of_singleton. auto.
  - rewrite Hdirs, !elem_of_union, !elem_of_singleton. split.
    + intros [Heq|[Heq|?]]; [revert Heq; path_neq..|done].
    + auto.
Qed.

Lemma write_output_twice_witness :
  (write_output sample_fit "out" sample_disk).1 = Ok () ∧
  write_output sample_fit "out" (write_output sample_fit "out" sample_disk).2
  = (Raise OSError, (write_output sample_fit "out" sample_disk).2).
Proof. apply write_output_twice, sample_disk_ready. Defined.

(** X17. A save that fails on an [eigenspectra] directory left by an
    earlier save is not without effect: [write_output] raises [OSError]
    only after [wavelengths.dat] has been written, and that is all that
    has changed on the disk. *)
Theorem write_output_existing_eigenspectra
    (self : pcaSED) (outFolder : string) (s : fs) (s0 : Sed) :
  head (spec_list self) = Some s0 →
  outFolder ∈ dirs s → (outFolder +:+ "/wavelengths.dat" ∉ dirs s) →
  outFolder +:+ "/eigenspectra" ∈ dirs s →
  write_output self outFolder s
  = (Raise OSError,
     mkFs (dirs s)
          (<[outFolder +:+ "/wavelengths.dat" := wavelen s0]> (files s))).
Proof.
  intros Hhead Hout Hwl Hspec. unfold write_output.
  rewrite io_bind_unfold. unfold io_lift. rewrite py_index_head, Hhead.
  rewrite io_bind_unfold.
  rewrite (np_savetxt_ok outFolder "wavelengths.dat") by done.
  by rewrite io_bind_unfold, os_makedirs_exists.
Qed.

Lemma write_output_existing_eigenspectra_witness :
  write_output sample_fit "out" used_disk
  = (Raise OSError,
     mkFs (dirs used_disk)
          (<["out/wavelengths.dat" := [z 1; z 2; z 3]]> (files used_disk))).
Proof.
  apply (write_output_existing_eigenspectra sample_fit "out" used_disk
           (mkSed "sample.dat" [z 1; z 2; z 3] [z 1; z 1; z 1] None));
    compute_done.
Defined.

(** ** Nothing to fit *)

Lemma loadSpectra_none_kept (readSED_flambda : string → read_outcome)
    (tree : walk) :
  Forall (λ file, kept readSED_flambda file = false) (walk_files tree) →
  loadSpectra readSED_flambda tree = [].
Proof.
  unfold loadSpectra, walk_files.
  induction tree as [|[[root ds] fs] tree IH]; [done|].
  rewrite !bind_cons. cbn beta iota. intros [Hfs Htree]%Forall_app.
  rewrite IH, app_nil_r by done. clear IH Htree.
  induction fs as [|fname fs IH]; [done|].
  rewrite fmap_cons in Hfs. apply Forall_cons in Hfs as [Hf Hfs].
  rewrite bind_cons, IH, app_nil_r by done.
  unfold kept in Hf. unfold load_one. cbn [fst snd] in Hf.
  by destruct (readSED_flambda _) as [|w|w [|f0 f]].
Qed.

(** X18. When no file of the directory tree is read as a table with a
    first flux value that is a number, [loadSpectra] returns no spectrum
    and [specPCA] on what it returns raises [IndexError], whatever the
    collaborators are. *)
Theorem specPCA_nothing_readable
    (readSED_flambda : string → read_outcome)
    (magListForSed : vec → vec → vec) (resampleSED : vec → vec → vec → vec)
    (sklPCA_fit : Z → list vec → result PCA)
    (tree : walk) (comps : Z) (minWavelen maxWavelen : Qc) :
  Forall (λ file, kept readSED_flambda file = false) (walk_files tree) →
  loadSpectra readSED_flambda tree = [] ∧
  specPCA magListForSed resampleSED sklPCA_fit
          (loadSpectra readSED_flambda tree) comps minWavelen maxWavelen
  = Raise IndexError.
Proof.
  intros Hnone. by rewrite loadSpectra_none_kept.
Qed.

Lemma specPCA_nothing_readable_witness :
  let reader := λ path : string,
    if bool_decide (path = "spectra/a.dat") then ReadLeadingNan [z 1; z 2]
    else if bool_decide (path = "spectra/sub/b.dat") then ReadTable [] []
    else ReadRaises in
  let tree := [("spectra", ["sub"], ["a.dat"; "notes.txt"]);
               ("spectra/sub", [], ["b.dat"])] in
  loadSpectra reader tree = [] ∧
  specPCA sample_mags resample_same_grid four_pca (loadSpectra reader tree)
          2 (z 1) (z 4)
  = Raise IndexError.
Proof.
  intros reader tree. apply specPCA_nothing_readable. compute_done.
Defined.

(** ** The coefficients of a fit *)

Lemma vdot_vsub_l (u v w : vec) :
  length u = length v → vdot (vsub u v) w = vdot u w - vdot v w.
Proof.
  unfold vdot, vsub. revert v w.
  induction u as [|x u IH]; intros [|y v] [|t w] Hlen; try done.
  all: try (change (0 = 0 - 0); ring).
  change (np_sum ((x - y) * t :: zip_with Qcmult (zip_with Qcminus u v) w)
          = np_sum (x * t :: zip_with Qcmult u w)
            - np_sum (y * t :: zip_with Qcmult v w)).
  rewrite !np_sum_cons, IH by (simpl in Hlen; lia). ring.
Qed.

Lemma vdot_sum_rows (n : nat) (X : list vec) (w : vec) :
  Forall (λ x, length x = n) X →
  vdot (foldr vadd (replicate n 0) X) w = np_sum ((λ x, vdot x w) <$> X).
Proof.
  induction 1 as [|x X Hx HX IH]; [apply vdot_replicate_0_l|].
  cbn [foldr]. rewrite fmap_cons, np_sum_cons, <-IH.
  apply vdot_vadd_l. rewrite Hx. symmetry.
  clear IH. induction HX as [|y X Hy _ IHX]; [apply length_replicate|].
  by apply length_vadd.
Qed.

Lemma np_sum_shifted {A} (f : A → Qc) (k : Qc) (X : list A) :
  np_sum ((λ x, f x - k) <$> X)
  = np_sum (f <$> X) - z (Z.of_nat (length X)) * k.
Proof.
  induction X as [|x X IH].
  - change (0 = 0 - 0 * k). ring.
  - rewrite !fmap_cons, !np_sum_cons, IH. cbn [length]. rewrite z_succ. ring.
Qed.

(** The projections of rows on a direction, taken from their mean, add
    up to nothing. *)
Lemma projections_centred (n : nat) (X : list vec) (w : vec) :
  X ≠ [] → Forall (λ x, length x = n) X →
  np_sum ((λ x, vdot (vsub x (np_mean_rows n X)) w) <$> X) = 0.
Proof.
  intros HX Hlen.
  rewrite (Forall_fmap_ext_1
             (λ x, vdot (vsub x (np_mean_rows n X)) w)
             (λ x, vdot x w - vdot (np_mean_rows n X) w)).
  - rewrite np_sum_shifted. unfold np_mean_rows.
    rewrite vdot_vscale_l, vdot_sum_rows by done.
    destruct X as [|x X]; [done|]. cbn [length].
    pose proof (z_pos (length X)) as Hpos. apply Qclt_not_eq in Hpos.
    field. congruence.
  - eapply Forall_impl; [exact Hlen|]. intros x Hx. cbn beta in Hx |- *.
    apply vdot_vsub_l. by rewrite length_np_mean_rows.
Qed.

Lemma np_sum_all_zero {A} (X : list A) : np_sum ((λ _, 0) <$> X) = 0.
Proof.
  induction X as [|x X IH]; [done|]. rewrite fmap_cons, np_sum_cons, IH. ring.
Qed.

(** X19. When the PCA answers with the mean of the rows it was given as
    its [mean_], and these rows have the length of its axes (nothing
    else is asked of the axes), the coefficients of a fit are centred:
    every column of [projected], the coefficients of all spectra for one
    eigenspectrum, sums to zero; in exact arithmetic, exactly. *)
Theorem specPCA_coefficients_centred
    (magListForSed : vec → vec → vec) (resampleSED : vec → vec → vec → vec)
    (sklPCA_fit : Z → list vec → result PCA)
    (spec_list_orig : list Sed) (comps : Z) (minWavelen maxWavelen : Qc)
    (self : pcaSED) :
  (∀ X p, sklPCA_fit comps X = Ok p →
          Forall (λ x, length x = ncols (components_ p)) X ∧
          mean_ p = np_mean_rows (ncols (components_ p)) X) →
  specPCA magListForSed resampleSED sklPCA_fit spec_list_orig comps
          minWavelen maxWavelen = Ok self →
  Forall (λ column, np_sum column = 0) (rows (np_transpose (projected self))).
Proof.
  intros Hcontract (first & rest & ws & p & -> & _ & Hp & ->)%specPCA_inv.
  unfold fit_of. cbv zeta. cbn [projected].
  rewrite <-list_fmap_compose.
  set (X := _ <$> first :: rest) in *.
  apply Hcontract in Hp as [Hfeat Hmean].
  unfold np_transpose, pca_transform. cbn [rows ncols].
  apply Forall_fmap, Forall_forall. intros k _. unfold compose.
  rewrite <-list_fmap_compose.
  destruct (rows (components_ p) !! k) as [c|] eqn:Hc.
  - etrans; [|exact (projections_centred (ncols (components_ p)) X c
                        ltac:(done) Hfeat)].
    f_equal. apply list_fmap_ext. intros _ x _. unfold compose.
    by rewrite list_lookup_fmap, Hc, Hmean.
  - etrans; [|exact (np_sum_all_zero X)]. f_equal.
    apply list_fmap_ext. intros _ x _. unfold compose.
    by rewrite list_lookup_fmap, Hc.
Qed.

Lemma specPCA_coefficients_centred_witness :
  ∃ self,
    specPCA sample_mags resample_same_grid centring_pca two_spectra 1
            (z 1) (z 2) = Ok self ∧
    nrows (eigenspectra self) = 1%nat ∧
    Forall (λ column, np_sum column = 0)
           (rows (np_transpose (projected self))).
Proof.
  destruct (specPCA sample_mags resample_same_grid centring_pca two_spectra 1
              (z 1) (z 2)) as [self|e] eqn:Hfit; [|by vm_compute in Hfit].
  exists self. split; [done|]. split.
  - assert ((self' ← specPCA sample_mags resample_same_grid centring_pca
                       two_spectra 1 (z 1) (z 2);
             Ok (bool_decide (nrows (eigenspectra self') = 1%nat)))
            = Ok true) as Hcheck by (vm_compute; reflexivity).
    rewrite Hfit in Hcheck. injection Hcheck as Hcheck.
    exact (bool_decide_eq_true_1 _ Hcheck).
  - apply (specPCA_coefficients_centred
             sample_mags resample_same_grid centring_pca two_spectra 1
             (z 1) (z 2)).
    + apply centring_pca_mean.
    + exact Hfit.
Defined.

(** * Reconstruction over the real numbers *)

Section over_R.
Import OverR.
Local Open Scope R_scope.

Lemma np_sum_cons_R (x : R) (v : vec) : np_sum (x :: v) = x + np_sum v.
Proof. reflexivity. Qed.

Lemma vdot_vscale_l_R (a : R) (v w : vec) :
  vdot (vscale a v) w = a * vdot v w.
Proof.
  unfold vdot, vscale. revert w. induction v as [|x v IH]; intros [|y w].
  1-3: change (0 = a * 0); ring.
  rewrite fmap_cons. simpl. rewrite !np_sum_cons_R, IH. ring.
Qed.

Lemma vdot_vadd_l_R (u v w : vec) :
  length u = length v → vdot (vadd u v) w = vdot u w + vdot v w.
Proof.
  unfold vdot, vadd. revert v w.
  induction u as [|x u IH]; intros [|y v] [|t w] Hlen; try done.
  all: try (change (0 = 0 + 0); ring).
  simpl. rewrite !np_sum_cons_R, IH by (simpl in Hlen; lia). ring.
Qed.

Lemma vdot_replicate_0_l_R (n : nat) (w : vec) : vdot (replicate n 0) w = 0.
Proof.
  unfold vdot. revert w. induction n as [|n IH]; intros [|y w]; try done.
  simpl. rewrite np_sum_cons_R, IH. ring.
Qed.

Lemma length_vadd_R (u v : vec) (n : nat) :
  length u = n → length v = n → length (vadd u v) = n.
Proof. intros Hu Hv. unfold vadd. rewrite length_zip_with. lia. Qed.

Lemma length_vecmat_R (n : nat) (c : vec) (V : list vec) :
  Forall (λ v, length v = n) V → length (vecmat n c V) = n.
Proof.
  intros HV. revert c. unfold vecmat.
  induction HV as [|v V Hv _ IH]; intros [|a c]; simpl;
    try apply length_replicate.
  apply length_vadd_R; [|apply IH]. unfold vscale. by rewrite length_fmap.
Qed.

Lemma vecmat_cons_R (n : nat) (a : R) (c v : vec) (V : list vec) :
  vecmat n (a :: c) (v :: V) = vadd (vscale a v) (vecmat n c V).
Proof. reflexivity. Qed.

(** A combination of vectors orthogonal to [w] is orthogonal to [w]. *)
Lemma vdot_vecmat_orthogonal_R (n : nat) (c w : vec) (V : list vec) :
  Forall (λ v, length v = n) V → Forall (λ v, vdot v w = 0) V →
  vdot (vecmat n c V) w = 0.
Proof.
  intros Hlen. revert c. induction Hlen as [|v V Hv HV IH]; intros c Hort.
  { destruct c; apply vdot_replicate_0_l_R. }
  destruct c as [|a c]; [apply vdot_replicate_0_l_R|].
  apply Forall_cons in Hort as [Hvw Hort]. rewrite vecmat_cons_R.
  rewrite vdot_vadd_l_R.
  - rewrite vdot_vscale_l_R, Hvw, IH by done. ring.
  - unfold vscale. rewrite length_fmap, Hv. symmetry. by apply length_vecmat_R.
Qed.

Lemma vdot_comm_R (u v : vec) : vdot u v = vdot v u.
Proof.
  unfold vdot. revert v. induction u as [|x u IH]; intros [|y v]; try done.
  simpl. rewrite !np_sum_cons_R, IH. ring.
Qed.

(** The coefficients of a combination of orthonormal vectors are its
    inner products with them. *)
Lemma orthonormal_coefficients_R (n : nat) (c : vec) (V : list vec) :
  Forall (λ v, length v = n) V → orthonormal V → length c = length V →
  vdot (vecmat n c V) <$> V = c.
Proof.
  intros Hlen. revert c. induction Hlen as [|v V Hv HV IH]; intros c Hort Hc.
  { by destruct c. }
  destruct c as [|a c]; [done|]. destruct Hort as (Hvv & Hvw & Hort).
  rewrite vecmat_cons_R, fmap_cons.
  assert (length (vscale a v) = length (vecmat n c V)) as Hl.
  { unfold vscale. rewrite length_fmap, Hv. symmetry. by apply length_vecmat_R. }
  f_equal.
  - rewrite vdot_vadd_l_R, vdot_vscale_l_R, Hvv by done.
    rewrite vdot_vecmat_orthogonal_R; [ring|done|].
    eapply Forall_impl; [exact Hvw|]. intros w Hw. simpl in Hw.
    by rewrite vdot_comm_R.
  - rewrite <-(IH c) at 2 by (done || (simpl in Hc; lia)).
    apply Forall_fmap_ext. eapply Forall_impl; [exact Hvw|].
    intros w Hw. simpl in Hw.
    rewrite vdot_vadd_l_R, vdot_vscale_l_R, Hw by done. ring.
Qed.

Lemma vadd_vsub_R (m x : vec) : length x = length m → vadd m (vsub x m) = x.
Proof.
  unfold vadd, vsub. revert m. induction x as [|a x IH]; intros [|b m] Hlen;
    try done.
  simpl. rewrite IH by (simpl in Hlen; lia). f_equal. ring.
Qed.

Lemma py_slice_to_whole (r : vec) : py_slice_to r (Z.of_nat (length r)) = r.
Proof.
  unfold py_slice_to. rewrite py_bound_ge by lia. by rewrite firstn_all.
Qed.
(** C4 (amended). Over the real numbers: when the PCA of the normalised
    spectra returns axes of unit length that are orthogonal to each
    other, as many values to an axis as to a spectrum, and the axes
    span the spectra less the mean (as they do when no component with
    variance was left out), the fit returns and reconstructing with all
    its eigenspectra gives back every normalised spectrum. *)
Theorem reconstruct_spectra_recovers_over_R
    (sklPCA_fit : Z → list vec → result PCA)
    (scaled_fluxes : list vec) (comps : Z) (spectra_pca : PCA) :
  sklPCA_fit comps scaled_fluxes = Ok spectra_pca →
  array_wf (components_ spectra_pca) →
  length (mean_ spectra_pca) = ncols (components_ spectra_pca) →
  Forall (λ x, length x = ncols (components_ spectra_pca)) scaled_fluxes →
  orthonormal (rows (components_ spectra_pca)) →
  Forall (λ x, ∃ c, length c = nrows (components_ spectra_pca) ∧
                    vsub x (mean_ spectra_pca)
                    = vecmat (ncols (components_ spectra_pca)) c
                             (rows (components_ spectra_pca)))
         scaled_fluxes →
  ∃ self,
    specPCA_pca sklPCA_fit scaled_fluxes comps = Ok self ∧
    reconstruct_spectra self (Z.of_nat (nrows (eigenspectra self)))
    = Ok (Array2 (ncols (eigenspectra self)) scaled_fluxes).
Proof.
  intros Hpca Hwf Hmean Hlen Horth Hspan. eexists. split.
  { unfold specPCA_pca. rewrite Hpca. reflexivity. }
  cbn [eigenspectra projected mean_spec].
  unfold reconstruct_spectra. cbn [eigenspectra projected mean_spec].
  assert (np_cols_to (pca_transform spectra_pca scaled_fluxes)
                     (Z.of_nat (nrows (components_ spectra_pca)))
          = pca_transform spectra_pca scaled_fluxes) as ->.
  { unfold np_cols_to, pca_transform. cbn [ncols rows].
    rewrite py_bound_ge by lia. f_equal.
    rewrite <-list_fmap_compose. apply list_fmap_ext. intros _ x _.
    unfold compose. unfold nrows at 1.
    rewrite <-(length_fmap (vdot (vsub x (mean_ spectra_pca)))
                 (rows (components_ spectra_pca))).
    apply py_slice_to_whole. }
  unfold np_dot, pca_transform. cbn [ncols rows].
  rewrite bool_decide_eq_true_2 by done. cbn [mbind result_bind].
  unfold np_add_broadcast. cbn [ncols rows].
  rewrite bool_decide_eq_true_2 by done. do 2 f_equal.
  rewrite <-!list_fmap_compose.
  rewrite <-(list_fmap_id scaled_fluxes) at 2.
  apply Forall_fmap_ext. rewrite Forall_forall. intros x Hx. unfold compose.
  pose proof (proj1 (Forall_forall _ _) Hspan x Hx) as (c & Hc & Hxc).
  pose proof (proj1 (Forall_forall _ _) Hlen x Hx) as Hl.
  rewrite Hxc, orthonormal_coefficients_R by done.
  rewrite <-Hxc. apply vadd_vsub_R. by rewrite Hmean.
Qed.

Lemma sqrt2_squared : sqrt 2 * sqrt 2 = 2.
Proof. apply sqrt_sqrt. lra. Qed.

Lemma sqrt2_pos : 0 < sqrt 2.
Proof. apply sqrt_lt_R0. lra. Qed.

(** The two normalised spectra [(1/4, 3/4)] and [(3/4, 1/4)] and their
    PCA, whose axis [(-1/√2, 1/√2)] has no rational coordinates. *)
Lemma reconstruct_spectra_recovers_over_R_witness :
  ∃ self,
    specPCA_pca two_pca two_scaled 1 = Ok self ∧
    reconstruct_spectra self (Z.of_nat (nrows (eigenspectra self)))
    = Ok (Array2 (ncols (eigenspectra self)) two_scaled).
Proof.
  pose proof sqrt2_squared as Hsq. pose proof sqrt2_pos as Hpos.
  assert (/ sqrt 2 * / sqrt 2 = 1 / 2) as Hinv.
  { rewrite <-Rinv_mult, Hsq. lra. }
  assert (sqrt 2 * / sqrt 2 = 1) as Hunit by (apply Rinv_r; lra).
  apply (reconstruct_spectra_recovers_over_R two_pca two_scaled 1
           (mkPCA [1 / 2; 1 / 2] (Array2 2 [[- / sqrt 2; / sqrt 2]]) [1])).
  - reflexivity.
  - by repeat constructor.
  - reflexivity.
  - by repeat constructor.
  - cbn [components_ rows orthonormal]. split; [|by split].
    unfold vdot. cbn [zip_with]. unfold np_sum. cbn [foldr]. nra.
  - cbn [components_ mean_ rows ncols nrows]. unfold two_scaled.
    repeat constructor.
    + exists [sqrt 2 / 4]. split; [done|].
      unfold vsub, vecmat, vadd, vscale.
      cbn [zip zip_with foldr replicate fmap list_fmap].
      replace (sqrt 2 / 4 * - / sqrt 2) with (- (sqrt 2 * / sqrt 2) / 4)
        by (unfold Rdiv; ring).
      replace (sqrt 2 / 4 * / sqrt 2) with (sqrt 2 * / sqrt 2 / 4)
        by (unfold Rdiv; ring).
      rewrite Hunit.
      f_equal; [|f_equal]; lra.
    + exists [- sqrt 2 / 4]. split; [done|].
      unfold vsub, vecmat, vadd, vscale.
      cbn [zip zip_with foldr replicate fmap list_fmap].
      replace (- sqrt 2 / 4 * - / sqrt 2) with (sqrt 2 * / sqrt 2 / 4)
        by (unfold Rdiv; ring).
      replace (- sqrt 2 / 4 * / sqrt 2) with (- (sqrt 2 * / sqrt 2) / 4)
        by (unfold Rdiv; ring).
      rewrite Hunit.
      f_equal; [|f_equal]; lra.
Defined.
End over_R.
